(** * The adiabatic-theorem notebook (adiabatic_theorem.ipynb)

    A shallow embedding of the notebook's cells: the Hermitian sampler,
    the interpolated Hamiltonian [H], the complex/real encoding used to
    feed the ODE solver, the sweep over [T_list] and the deviation
    analysis.

    Numbers: numpy's float64 and complex128 are idealised as the real
    numbers [R] and pairs of reals [C]; every arithmetic step of the
    source (upcasts of reals to complex, the order of products) is kept
    as written.  Python exceptions are values of [exn]; expressions that
    can raise live in [result], statements that can raise in [outcome],
    which keeps the module namespace reached when the exception escapes. *)

From Stdlib Require Import Reals Lra Lia List Permutation Psatz.
Import ListNotations.
Local Open Scope R_scope.

(** ** Complex scalars (complex128 over exact reals) *)

Record C : Type := mkC { Re : R; Im : R }.

(** A float becoming complex: [x] becomes [x + 0j]. *)
Definition RtoC (x : R) : C := mkC x 0.

(** The literal [1.j]. *)
Definition Ci : C := mkC 0 1.

Definition Cadd (z w : C) : C := mkC (Re z + Re w) (Im z + Im w).
Definition Csub (z w : C) : C := mkC (Re z - Re w) (Im z - Im w).
Definition Cneg (z : C) : C := mkC (- Re z) (- Im z).
Definition Cmul (z w : C) : C :=
  mkC (Re z * Re w - Im z * Im w) (Re z * Im w + Im z * Re w).
Definition Cconj (z : C) : C := mkC (Re z) (- Im z).
Definition Cdiv (z w : C) : C :=
  mkC ((Re z * Re w + Im z * Im w) / (Re w * Re w + Im w * Im w))
      ((Im z * Re w - Re z * Im w) / (Re w * Re w + Im w * Im w)).

(** [np.absolute] on a complex scalar. *)
Definition Cabs (z : C) : R := sqrt (Re z * Re z + Im z * Im z).

(** ** 2x2 arrays *)

Record M2 (X : Type) : Type := mkM2 { m00 : X; m01 : X; m10 : X; m11 : X }.
Arguments mkM2 {X} _ _ _ _.
Arguments m00 {X} _.
Arguments m01 {X} _.
Arguments m10 {X} _.
Arguments m11 {X} _.

Definition mmap {X Y : Type} (f : X -> Y) (m : M2 X) : M2 Y :=
  mkM2 (f (m00 m)) (f (m01 m)) (f (m10 m)) (f (m11 m)).

Definition mzip {X Y Z : Type} (f : X -> Y -> Z) (m : M2 X) (n : M2 Y) : M2 Z :=
  mkM2 (f (m00 m) (m00 n)) (f (m01 m) (m01 n))
       (f (m10 m) (m10 n)) (f (m11 m) (m11 n)).

(** [m.T] *)
Definition transpose {X : Type} (m : M2 X) : M2 X :=
  mkM2 (m00 m) (m10 m) (m01 m) (m11 m).

(** [m.conj()] and [np.conj(m)] *)
Definition mconj (m : M2 C) : M2 C := mmap Cconj m.

(** complex array + complex array, elementwise *)
Definition madd (m n : M2 C) : M2 C := mzip Cadd m n.
Definition msub (m n : M2 C) : M2 C := mzip Csub m n.

(** scalar * complex array *)
Definition mscale (s : C) (m : M2 C) : M2 C := mmap (Cmul s) m.

(** complex array / scalar *)
Definition mdiv (m : M2 C) (s : C) : M2 C := mmap (fun z => Cdiv z s) m.

(** [m @ n] *)
Definition matmul (m n : M2 C) : M2 C :=
  mkM2 (Cadd (Cmul (m00 m) (m00 n)) (Cmul (m01 m) (m10 n)))
       (Cadd (Cmul (m00 m) (m01 n)) (Cmul (m01 m) (m11 n)))
       (Cadd (Cmul (m10 m) (m00 n)) (Cmul (m11 m) (m10 n)))
       (Cadd (Cmul (m10 m) (m01 n)) (Cmul (m11 m) (m11 n))).

(** The conjugate transpose, written [m.conj().T] in the sampler and
    [np.conj(m.T)] in the analysis. *)
Definition conj_then_T (m : M2 C) : M2 C := transpose (mconj m).
Definition T_then_conj (m : M2 C) : M2 C := mconj (transpose m).

Definition mzero : M2 C := mkM2 (RtoC 0) (RtoC 0) (RtoC 0) (RtoC 0).
Definition midentity : M2 C := mkM2 (RtoC 1) (RtoC 0) (RtoC 0) (RtoC 1).

Definition Hermitian (m : M2 C) : Prop := T_then_conj m = m.
Definition Unitary (u : M2 C) : Prop := matmul u (T_then_conj u) = midentity.

(** ** Exceptions *)

Inductive exn : Type := IndexError | ValueError | ZeroDivisionError.

Inductive result (X : Type) : Type :=
| Ok (x : X)
| Raise (e : exn).
Arguments Ok {X} _.
Arguments Raise {X} _.

Definition bind {X Y : Type} (r : result X) (k : X -> result Y) : result Y :=
  match r with
  | Ok x => k x
  | Raise e => Raise e
  end.

Notation "x <- r ;; k" := (bind r (fun x => k))
  (at level 61, r at next level, right associativity).

Fixpoint mapM {X Y : Type} (f : X -> result Y) (l : list X) : result (list Y) :=
  match l with
  | [] => Ok []
  | x :: l' => y <- f x ;; ys <- mapM f l' ;; Ok (y :: ys)
  end.

(** [l[n]] for a non-negative index. *)
Definition index {X : Type} (l : list X) (n : nat) : result X :=
  match nth_error l n with
  | Some x => Ok x
  | None => Raise IndexError
  end.

(** ** 1-d arrays and the encoding layer *)

(** Elementwise binary operation on two 1-d arrays under numpy's
    broadcasting: equal lengths pair up, a length-1 operand is
    stretched, anything else is a ValueError. *)
Fixpoint zip_with {X Y Z : Type} (f : X -> Y -> Z) (a : list X) (b : list Y) : list Z :=
  match a, b with
  | x :: a', y :: b' => f x y :: zip_with f a' b'
  | _, _ => []
  end.

Definition broadcast {X Y Z : Type} (f : X -> Y -> Z) (a : list X) (b : list Y)
  : result (list Z) :=
  if Nat.eqb (length a) (length b) then Ok (zip_with f a b)
  else match a, b with
       | [x], _ => Ok (map (f x) b)
       | _, [y] => Ok (map (fun x => f x y) a)
       | _, _ => Raise ValueError
       end.

Definition complex_to_real_imag (x : list C) : list R :=
  map Re x ++ map Im x.

Definition real_imag_to_complex (real_imag : list R) : result (list C) :=
  let n_half := (length real_imag / 2)%nat in
  broadcast (fun r c => Cadd (RtoC r) c)
            (firstn n_half real_imag)
            (map (fun x => Cmul Ci (RtoC x)) (skipn n_half real_imag)).

(** [m.flatten()], row-major. *)
Definition flatten {X : Type} (m : M2 X) : list X :=
  [m00 m; m01 m; m10 m; m11 m].

(** [v.reshape((2,2))]: exactly four elements, or a ValueError. *)
Definition reshape22 {X : Type} (v : list X) : result (M2 X) :=
  match v with
  | [a; b; c; d] => Ok (mkM2 a b c d)
  | _ => Raise ValueError
  end.

Definition matrix_to_flat (matrix : M2 C) : list R :=
  complex_to_real_imag (flatten matrix).

Definition flat_to_matrix (flattened : list R) : result (M2 C) :=
  v <- real_imag_to_complex flattened ;; reshape22 v.

(** ** The notebook's module namespace

    The names bound at module level that the cells read or rebind.  [T]
    is rebound by both loops and read by [H]; the namespace is modelled
    from the point where the sweep loop has bound it. *)

Record Env : Type := mkEnv {
  A : M2 C;
  B : M2 C;
  U_A : M2 C;
  T : R;
  T_list : list R;
  U_T_list : list (M2 C);
  U_A_flat : list R;
  approx_B_diag_list : list (M2 C);
  off_diag_elements_of_approx_B_list : list R
}.

Definition set_T (g : Env) (v : R) : Env :=
  mkEnv (A g) (B g) (U_A g) v (T_list g) (U_T_list g) (U_A_flat g)
        (approx_B_diag_list g) (off_diag_elements_of_approx_B_list g).

Definition set_T_list (g : Env) (v : list R) : Env :=
  mkEnv (A g) (B g) (U_A g) (T g) v (U_T_list g) (U_A_flat g)
        (approx_B_diag_list g) (off_diag_elements_of_approx_B_list g).

Definition set_U_T_list (g : Env) (v : list (M2 C)) : Env :=
  mkEnv (A g) (B g) (U_A g) (T g) (T_list g) v (U_A_flat g)
        (approx_B_diag_list g) (off_diag_elements_of_approx_B_list g).

Definition set_U_A_flat (g : Env) (v : list R) : Env :=
  mkEnv (A g) (B g) (U_A g) (T g) (T_list g) (U_T_list g) v
        (approx_B_diag_list g) (off_diag_elements_of_approx_B_list g).

Definition set_approx_B_diag_list (g : Env) (v : list (M2 C)) : Env :=
  mkEnv (A g) (B g) (U_A g) (T g) (T_list g) (U_T_list g) (U_A_flat g)
        v (off_diag_elements_of_approx_B_list g).

Definition set_off_diag (g : Env) (v : list R) : Env :=
  mkEnv (A g) (B g) (U_A g) (T g) (T_list g) (U_T_list g) (U_A_flat g)
        (approx_B_diag_list g) v.

(** A statement either completes in a namespace or lets an exception
    escape, leaving the namespace as it was at that moment. *)
Inductive outcome : Type :=
| Done (g : Env)
| Raised (e : exn) (g : Env).

Definition final (o : outcome) : Env :=
  match o with
  | Done g => g
  | Raised _ g => g
  end.

(** [for x in l: body] *)
Fixpoint for_each {X : Type} (body : X -> Env -> outcome) (l : list X) (g : Env)
  : outcome :=
  match l with
  | [] => Done g
  | x :: l' =>
      match body x g with
      | Done g' => for_each body l' g'
      | Raised e g' => Raised e g'
      end
  end.

(** ** The Hamiltonian

    [def H(t): return (1 - t/T) * A + (t/T) * B], reading the globals
    [T], [A], [B]; the float coefficients are upcast to complex by the
    product with a complex array.  A zero [T] leaves [t/T] without a
    real value.  Python's division of a Python number raises
    ZeroDivisionError there, which is what the model returns; numpy's
    division of an [np.float64] time warns and yields inf or nan
    instead, and those have no counterpart over the reals: the model
    is the code's for [T <> 0] and for Python-number times. *)

Definition H (g : Env) (t : R) : result (M2 C) :=
  if Req_dec_T (T g) 0 then Raise ZeroDivisionError
  else Ok (madd (mscale (RtoC (1 - t / T g)) (A g))
                (mscale (RtoC (t / T g)) (B g))).

(** ** Configuration cell *)

(** [[10**(-1 + j * .25) for j in range(18)]] *)
Definition T_list_value : list R :=
  map (fun j : nat => Rpower 10 (-1 + INR j * 0.25)) (seq 0 18).

Definition config_cell (g : Env) : Env :=
  set_U_T_list (set_T_list g T_list_value) [].

(** [np.linspace(start, stop, num)] with its default [endpoint=True]:
    [num] samples [k * step + start], the last one overwritten by
    [stop]; a zero step takes numpy's other order of operations. *)
Definition linspace (start stop : R) (num : nat) : list R :=
  let div := INR (num - 1) in
  let delta := stop - start in
  let step := delta / div in
  let y := map (fun k : nat =>
                  if Req_dec_T step 0 then INR k / div * delta + start
                  else INR k * step + start) (seq 0 num) in
  if (1 <? num)%nat then removelast y ++ [stop] else y.

(** ** The right-hand side handed to the solver *)

Definition matrix_differential_equation
  (t : R) (U_flat : list R) (H_func : R -> result (M2 C)) : result (list R) :=
  U <- flat_to_matrix U_flat ;;
  Ht <- H_func t ;;
  let dUdt := matmul (mscale (Cneg Ci) Ht) U in
  Ok (matrix_to_flat dUdt).

(** What [solve_ivp] hands back: the fields the notebook could read. *)
Record OdeResult : Type := mkOdeResult {
  sol_t : list R;
  sol_y : list (list R);
  sol_success : bool
}.

Definition num_values : nat := 100.

(** [np.array([solution.y[i][num_values] for i in range(8)])] followed by
    [real_imag_to_complex(U_T_flat).reshape((2,2))]. *)
Definition extract_U_T (solution : OdeResult) : result (M2 C) :=
  U_T_flat <- mapM (fun i => row <- index (sol_y solution) i ;;
                             index row num_values) (seq 0 8) ;;
  v <- real_imag_to_complex U_T_flat ;;
  reshape22 v.

(** ** Hermitian sampler, with the random source threaded through *)

Section Sampler.

Variable RNG : Type.
(** [np.random.randn(2, 2)] *)
Variable randn_2_2 : RNG -> M2 R * RNG.

Definition sample_hermitian_matrix (s : RNG) : M2 C * RNG :=
  let (real_part, s1) := randn_2_2 s in
  let (imag_part, s2) := randn_2_2 s1 in
  let matrix := mzip (fun r c => Cadd (RtoC r) c) real_part
                     (mmap (fun x => Cmul Ci (RtoC x)) imag_part) in
  let hermitian_matrix :=
    mdiv (madd matrix (conj_then_T matrix)) (RtoC 2) in
  (hermitian_matrix, s2).

(** The matrix [X] the sampler symmetrises, as a function of the draws. *)
Definition drawn_matrix (s : RNG) : M2 C :=
  let (real_part, s1) := randn_2_2 s in
  let (imag_part, _) := randn_2_2 s1 in
  mzip mkC real_part imag_part.

End Sampler.

(** ** The sweep and the analysis, over an arbitrary solver *)

Section Sweep.

(** [solve_ivp(fun, t_span, y0, t_eval=...)] with the default method.
    It is a library routine: any function of its arguments. *)
Variable solve_ivp :
  (R -> list R -> result (list R)) -> R * R -> list R -> list R ->
  result OdeResult.

(** One pass of [for T in T_list: ...]. *)
Definition sweep_body (Tv : R) (g : Env) : outcome :=
  let g := set_T g Tv in
  let t_span := (0, Tv) in
  let t_list := linspace 0 Tv (num_values + 1) in
  match
    solution <- solve_ivp (fun t U_flat => matrix_differential_equation t U_flat (H g))
                          t_span (U_A_flat g) t_list ;;
    extract_U_T solution
  with
  | Ok U_T => Done (set_U_T_list g (U_T_list g ++ [U_T]))
  | Raise e => Raised e g
  end.

(** The sweep cell: encode the initial condition, then loop. *)
Definition sweep_cell (g : Env) : outcome :=
  let g := set_U_A_flat g (matrix_to_flat (U_A g)) in
  for_each sweep_body (T_list g) g.

(** The [solution] object of the pass for [Tv], for use in statements. *)
Definition solution_at (g : Env) (Tv : R) : result OdeResult :=
  solve_ivp (fun t U_flat =>
               matrix_differential_equation t U_flat (H (set_T g Tv)))
            (0, Tv) (U_A_flat g) (linspace 0 Tv (num_values + 1)).

(** [np.conj(U_T.T) @ B @ U_T], the products taken left to right. *)
Definition approx_B_diag (Bm U_T : M2 C) : M2 C :=
  matmul (matmul (T_then_conj U_T) Bm) U_T.

(** One pass of the analysis loop [for j in range(len(T_list)): ...]. *)
Definition analysis_body (j : nat) (g : Env) : outcome :=
  match index (T_list g) j with
  | Raise e => Raised e g
  | Ok Tv =>
      let g := set_T g Tv in
      match index (U_T_list g) j with
      | Raise e => Raised e g
      | Ok U_T =>
          let a := approx_B_diag (B g) U_T in
          let g := set_approx_B_diag_list g (approx_B_diag_list g ++ [a]) in
          Done (set_off_diag g
                  (off_diag_elements_of_approx_B_list g ++ [Cabs (m01 a)]))
      end
  end.

Definition analysis_cell (g : Env) : outcome :=
  let g := set_approx_B_diag_list g [] in
  let g := set_off_diag g [] in
  for_each analysis_body (seq 0 (length (T_list g))) g.

(** *** The sweep as a pure map

    What the sweep is meant to be: for each entry of the list, the
    integration result for that entry alone, as a function of
    [(T, A, B, U_A)] and nothing else. *)

Definition pure_H (Am Bm : M2 C) (Tv t : R) : result (M2 C) :=
  if Req_dec_T Tv 0 then Raise ZeroDivisionError
  else Ok (madd (mscale (RtoC (1 - t / Tv)) Am) (mscale (RtoC (t / Tv)) Bm)).

Definition integrate (Am Bm Um : M2 C) (Tv : R) : result (M2 C) :=
  solution <- solve_ivp
                (fun t U_flat => matrix_differential_equation t U_flat (pure_H Am Bm Tv))
                (0, Tv) (matrix_to_flat Um) (linspace 0 Tv 101) ;;
  extract_U_T solution.

Definition pure_sweep (Am Bm Um : M2 C) (Ts : list R) : result (list (M2 C)) :=
  mapM (integrate Am Bm Um) Ts.

End Sweep.

(** ** Sample inputs

    The spec's concrete scenario, [A = [[1,0],[0,-1]]] and
    [B = [[0,1],[1,0]]] with the identity as eigenbasis of [A], and a
    Hermitian matrix and a unitary with non-zero imaginary parts. *)

Definition pauli_z : M2 C := mkM2 (RtoC 1) (RtoC 0) (RtoC 0) (RtoC (-1)).
Definition pauli_x : M2 C := mkM2 (RtoC 0) (RtoC 1) (RtoC 1) (RtoC 0).

Definition scenario (Tv : R) : Env :=
  mkEnv pauli_z pauli_x midentity Tv T_list_value []
        (matrix_to_flat midentity) [] [].

Definition skew_hermitian_sample : M2 C :=
  mkM2 (RtoC 1) (mkC 2 3) (mkC 2 (-3)) (RtoC 4).

Definition swap_i : M2 C := mkM2 (RtoC 0) Ci Ci (RtoC 0).

(** Stand-ins for the solver, to run the cells on.  [frozen_solver]
    answers on the whole grid with the initial state and reports
    success.  [patchy_solver] does the same for an interval ending at
    1 or before; on a longer interval it gives up before the last grid
    point: it reports failure and returns the grid and the rows without
    their last column. *)

Definition frozen_solver
  (f : R -> list R -> result (list R)) (t_span : R * R) (y0 t_eval : list R)
  : result OdeResult :=
  Ok (mkOdeResult t_eval (map (fun v => map (fun _ => v) t_eval) y0) true).

Definition patchy_solver
  (f : R -> list R -> result (list R)) (t_span : R * R) (y0 t_eval : list R)
  : result OdeResult :=
  if Rle_dec (snd t_span) 1
  then Ok (mkOdeResult t_eval (map (fun v => map (fun _ => v) t_eval) y0) true)
  else Ok (mkOdeResult (removelast t_eval)
             (map (fun v => map (fun _ => v) (removelast t_eval)) y0) false).

(** ** The unitarity check and the plot *)

(** [l[-k]] for [k >= 1]. *)
Definition index_neg {X : Type} (l : list X) (k : nat) : result X :=
  if (k <=? length l)%nat then index l (length l - k) else Raise IndexError.

(** [np.rint]: the nearest integer, ties going to the even one. *)
Definition rint (x : R) : R :=
  let f := Zfloor x in
  let d := x - IZR f in
  if Rlt_dec d (/ 2) then IZR f
  else if Rlt_dec (/ 2) d then IZR f + 1
  else if Z.even f then IZR f else IZR f + 1.

(** [np.round(x, decimals)]: scale, [rint], scale back; on a complex
    number the two parts are rounded separately. *)
Definition np_round (decimals : nat) (x : R) : R :=
  rint (x * 10 ^ decimals) / 10 ^ decimals.

Definition cround (decimals : nat) (z : C) : C :=
  mkC (np_round decimals (Re z)) (np_round decimals (Im z)).

(** [(U_T_list[-1] @ np.conj(U_T_list[-1].T)).round(2)] *)
Definition unitarity_check (g : Env) : result (M2 C) :=
  U <- index_neg (U_T_list g) 1 ;;
  U' <- index_neg (U_T_list g) 1 ;;
  Ok (mmap (cround 2) (matmul U (T_then_conj U'))).

(** [np.log10] on a positive float. *)
Definition np_log10 (x : R) : R := ln x / ln 10.

(** [plt.plot(np.log10(T_list), off_diag_elements_of_approx_B_list, ...)]:
    the points drawn, or the ValueError of sequences of unequal
    length. *)
Definition plot_cell (g : Env) : result (list (R * R)) :=
  let x := map np_log10 (T_list g) in
  let y := off_diag_elements_of_approx_B_list g in
  if Nat.eqb (length x) (length y) then Ok (combine x y)
  else Raise ValueError.

(** The eight componentwise distances between two arrays: real parts
    row by row, then imaginary parts. *)
Definition component_gaps (M N : M2 C) : list R :=
  map Rabs (zip_with Rminus (matrix_to_flat M) (matrix_to_flat N)).

(** * Properties *)

(** ** Equality of scalars and arrays, componentwise *)

Lemma C_eq (z w : C) : Re z = Re w -> Im z = Im w -> z = w.
Proof. destruct z, w; simpl; intros -> ->; reflexivity. Qed.

Lemma M2_eq {X : Type} (m n : M2 X) :
  m00 m = m00 n -> m01 m = m01 n -> m10 m = m10 n -> m11 m = m11 n -> m = n.
Proof. destruct m, n; simpl; intros -> -> -> ->; reflexivity. Qed.

Ltac by_components :=
  repeat match goal with
         | |- @eq (M2 _) _ _ => apply M2_eq; simpl
         | |- @eq C _ _ => apply C_eq; simpl
         end.

(** ** The encoding layer *)

Lemma recombine_parts (z : C) :
  Cadd (RtoC (Re z)) (Cmul Ci (RtoC (Im z))) = z.
Proof. by_components; lra. Qed.

Lemma zip_recombine (x : list C) :
  zip_with (fun r c => Cadd (RtoC r) c) (map Re x)
           (map (fun v => Cmul Ci (RtoC v)) (map Im x)) = x.
Proof.
  induction x as [|z x IH]; simpl.
  - reflexivity.
  - rewrite recombine_parts, IH. reflexivity.
Qed.

Lemma half_of_double (n : nat) : ((n + n) / 2 = n)%nat.
Proof.
  replace (n + n)%nat with (n * 2)%nat by lia.
  apply Nat.div_mul. discriminate.
Qed.

Lemma real_imag_roundtrip (x : list C) :
  real_imag_to_complex (complex_to_real_imag x) = Ok x.
Proof.
  unfold real_imag_to_complex, complex_to_real_imag.
  rewrite length_app, !length_map, half_of_double.
  assert (Hn : length x = length (map Re x)) by (symmetry; apply length_map).
  rewrite Hn, firstn_app, Nat.sub_diag, firstn_all, firstn_O, app_nil_r.
  rewrite skipn_app, Nat.sub_diag, skipn_all. simpl.
  unfold broadcast. rewrite !length_map, Nat.eqb_refl.
  rewrite zip_recombine. reflexivity.
Qed.

Lemma zip_real_parts (a b : list R) :
  length a = length b ->
  map Re (zip_with (fun r c => Cadd (RtoC r) c) a
                   (map (fun v => Cmul Ci (RtoC v)) b)) = a.
Proof.
  revert b.
  induction a as [|r a IH]; intros [|v b] Hlen; simpl in *; try discriminate.
  - reflexivity.
  - injection Hlen as Hlen. rewrite (IH b Hlen). f_equal. lra.
Qed.

Lemma zip_imag_parts (a b : list R) :
  length a = length b ->
  map Im (zip_with (fun r c => Cadd (RtoC r) c) a
                   (map (fun v => Cmul Ci (RtoC v)) b)) = b.
Proof.
  revert b.
  induction a as [|r a IH]; intros [|v b] Hlen; simpl in *; try discriminate.
  - reflexivity.
  - injection Hlen as Hlen. rewrite (IH b Hlen). f_equal. lra.
Qed.

Lemma even_length_halves (v : list R) (n : nat) :
  length v = (n + n)%nat ->
  length (firstn n v) = n /\ length (skipn n v) = n.
Proof. intros Hlen. rewrite length_firstn, length_skipn. lia. Qed.

Lemma real_imag_roundtrip_back (v : list R) (n : nat) :
  length v = (n + n)%nat ->
  exists x, real_imag_to_complex v = Ok x /\ complex_to_real_imag x = v.
Proof.
  intros Hlen. destruct (even_length_halves v n Hlen) as [Hf Hs].
  unfold real_imag_to_complex. rewrite Hlen, half_of_double.
  unfold broadcast. rewrite length_map, Hf, Hs, Nat.eqb_refl.
  eexists. split; [reflexivity|].
  unfold complex_to_real_imag.
  rewrite zip_real_parts, zip_imag_parts by congruence.
  apply firstn_skipn.
Qed.

(** C3.  Decoding an encoded array gives the array back: for every 2x2
    complex matrix [M], [flat_to_matrix (matrix_to_flat M)] returns [M],
    and for every complex vector [x],
    [real_imag_to_complex (complex_to_real_imag x)] returns [x].  The two
    maps are inverse to each other in the other direction as well, on
    the real vectors an encoder can produce: length 8 for matrices, even
    length for vectors. *)
Theorem encoding_roundtrip :
  (forall M : M2 C, flat_to_matrix (matrix_to_flat M) = Ok M) /\
  (forall x : list C, real_imag_to_complex (complex_to_real_imag x) = Ok x) /\
  (forall v : list R, length v = 8%nat ->
     exists M, flat_to_matrix v = Ok M /\ matrix_to_flat M = v) /\
  (forall (v : list R) (n : nat), length v = (n + n)%nat ->
     exists x, real_imag_to_complex v = Ok x /\ complex_to_real_imag x = v).
Proof.
  split; [|split; [|split]].
  - intros M. unfold flat_to_matrix, matrix_to_flat.
    rewrite real_imag_roundtrip. destruct M; reflexivity.
  - exact real_imag_roundtrip.
  - intros v Hlen.
    destruct v as [|a0 [|a1 [|a2 [|a3 [|a4 [|a5 [|a6 [|a7 [|a8 v]]]]]]]]];
      try discriminate.
    eexists. split; [reflexivity|].
    unfold matrix_to_flat, complex_to_real_imag. simpl.
    repeat (f_equal; try lra).
  - exact real_imag_roundtrip_back.
Qed.

Lemma encoding_roundtrip_witness :
  (exists M, flat_to_matrix [1; 2; 3; 4; 5; 6; 7; 8] = Ok M
             /\ matrix_to_flat M = [1; 2; 3; 4; 5; 6; 7; 8]) /\
  (exists x, real_imag_to_complex [1; 2; 3; 4; 5; 6] = Ok x
             /\ complex_to_real_imag x = [1; 2; 3; 4; 5; 6]).
Proof.
  split.
  - apply (proj1 (proj2 (proj2 encoding_roundtrip))). reflexivity.
  - apply (proj2 (proj2 (proj2 encoding_roundtrip)) _ 3%nat). reflexivity.
Defined.

(** ** The Hamiltonian *)

Lemma Hermitian_entries (m : M2 C) :
  Hermitian m <->
  Im (m00 m) = 0 /\ Im (m11 m) = 0 /\
  Re (m10 m) = Re (m01 m) /\ Im (m10 m) = - Im (m01 m).
Proof.
  destruct m as [[a0 b0] [a1 b1] [a2 b2] [a3 b3]].
  unfold Hermitian, T_then_conj, mconj, transpose, mmap, Cconj. simpl.
  split.
  - intros Heq. injection Heq as E1 E2 E3 E4 E5 E6. repeat split; lra.
  - intros (E1 & E2 & E3 & E4). by_components; lra.
Qed.

Lemma H_value (g : Env) (t : R) :
  T g <> 0 ->
  H g t = Ok (madd (mscale (RtoC (1 - t / T g)) (A g))
                   (mscale (RtoC (t / T g)) (B g))).
Proof. intros Hnz. unfold H. destruct (Req_dec_T (T g) 0); [contradiction|reflexivity]. Qed.

(** C5.  For all endpoint matrices [A], [B] and every duration [T > 0],
    [H(0)] is [A] and [H(T)] is [B], exactly. *)
Theorem H_endpoints (g : Env) :
  0 < T g -> H g 0 = Ok (A g) /\ H g (T g) = Ok (B g).
Proof.
  intros Hpos. assert (Hnz : T g <> 0) by lra.
  rewrite !H_value by exact Hnz.
  split; f_equal; by_components; field; exact Hnz.
Qed.

Lemma H_endpoints_witness :
  H (scenario 2) 0 = Ok pauli_z /\ H (scenario 2) 2 = Ok pauli_x.
Proof. apply (H_endpoints (scenario 2)). simpl. lra. Defined.

(** C6.  With Hermitian [A] and [B], [T > 0] and [t] in [[0, T]], the
    interpolated matrix [(1 - t/T) A + (t/T) B] that [H] returns equals
    its own conjugate transpose. *)
Theorem H_hermitian (g : Env) (t : R) :
  Hermitian (A g) -> Hermitian (B g) -> 0 < T g -> 0 <= t <= T g ->
  exists Ht,
    H g t = Ok Ht /\
    Ht = madd (mscale (RtoC (1 - t / T g)) (A g)) (mscale (RtoC (t / T g)) (B g)) /\
    T_then_conj Ht = Ht.
Proof.
  intros HA HB Hpos _. assert (Hnz : T g <> 0) by lra.
  eexists. split; [apply H_value; exact Hnz|]. split; [reflexivity|].
  apply Hermitian_entries in HA. apply Hermitian_entries in HB.
  destruct HA as (A1 & A2 & A3 & A4). destruct HB as (B1 & B2 & B3 & B4).
  by_components; rewrite ?A1, ?A2, ?A3, ?A4, ?B1, ?B2, ?B3, ?B4; ring.
Qed.

Lemma H_hermitian_witness :
  exists Ht,
    H (scenario 2) 1 = Ok Ht /\
    Ht = madd (mscale (RtoC (1 - 1 / 2)) pauli_z) (mscale (RtoC (1 / 2)) pauli_x) /\
    T_then_conj Ht = Ht.
Proof.
  apply (H_hermitian (scenario 2) 1).
  - unfold Hermitian. simpl. by_components; lra.
  - unfold Hermitian. simpl. by_components; lra.
  - simpl. lra.
  - simpl. lra.
Defined.

Lemma T_list_value_positive (Tv : R) : In Tv T_list_value -> 0 < Tv.
Proof.
  unfold T_list_value. intros Hin. apply in_map_iff in Hin.
  destruct Hin as (j & <- & _). apply exp_pos.
Qed.

(** C10.  For a duration [T <> 0], [H] returns
    [(1 - t/T) A + (t/T) B] at every real [t], inside [[0, T]] or not.
    An exception out of [H] can only be the ZeroDivisionError of the
    division by [T], and only with [T = 0]; every value of the
    configured list is positive, and the sweep binds [T] to such a
    value before [H] can be called. *)
Theorem H_total_away_from_zero :
  (forall g t, T g <> 0 ->
     H g t = Ok (madd (mscale (RtoC (1 - t / T g)) (A g))
                      (mscale (RtoC (t / T g)) (B g)))) /\
  (forall g t e, H g t = Raise e -> e = ZeroDivisionError /\ T g = 0) /\
  (forall g Tv t, In Tv T_list_value ->
     0 < Tv /\ exists Ht, H (set_T g Tv) t = Ok Ht).
Proof.
  split; [exact H_value|]. split.
  - intros g t e. unfold H. destruct (Req_dec_T (T g) 0) as [Hz|Hnz].
    + intros Heq. injection Heq as <-. split; [reflexivity|exact Hz].
    + discriminate.
  - intros g Tv t Hin. apply T_list_value_positive in Hin.
    split; [exact Hin|]. eexists. apply H_value. simpl. lra.
Qed.

Lemma H_total_away_from_zero_witness :
  H (scenario 2) (-5) =
    Ok (madd (mscale (RtoC (1 - (-5) / 2)) pauli_z)
             (mscale (RtoC ((-5) / 2)) pauli_x)) /\
  (ZeroDivisionError = ZeroDivisionError /\ T (scenario 0) = 0) /\
  (0 < Rpower 10 (-1 + INR 0 * 0.25) /\
   exists Ht, H (set_T (scenario 0) (Rpower 10 (-1 + INR 0 * 0.25))) 7 = Ok Ht).
Proof.
  split; [|split].
  - apply (proj1 H_total_away_from_zero (scenario 2) (-5)). simpl. lra.
  - apply (proj1 (proj2 H_total_away_from_zero) (scenario 0) 0).
    unfold H. destruct (Req_dec_T (T (scenario 0)) 0) as [_|Hn];
      [reflexivity|contradiction Hn; reflexivity].
  - apply (proj2 (proj2 H_total_away_from_zero) (scenario 0)).
    unfold T_list_value. simpl. left. reflexivity.
Defined.

(** ** The sampler *)

Section SamplerFacts.

Variable RNG : Type.
Variable randn_2_2 : RNG -> M2 R * RNG.

(** C7.  The sampler returns [(X + X†)/2], where the entries of [X]
    have the first draw as real parts and the second draw as imaginary
    parts; the returned matrix [M] equals its conjugate transpose, and
    [M - M†] is the zero matrix. *)
Theorem sample_hermitian_matrix_hermitian (s : RNG) :
  let M := fst (sample_hermitian_matrix RNG randn_2_2 s) in
  let X := drawn_matrix RNG randn_2_2 s in
  X = mzip mkC (fst (randn_2_2 s)) (fst (randn_2_2 (snd (randn_2_2 s)))) /\
  M = mdiv (madd X (conj_then_T X)) (RtoC 2) /\
  T_then_conj M = M /\
  conj_then_T M = M /\
  msub M (T_then_conj M) = mzero.
Proof.
  unfold sample_hermitian_matrix, drawn_matrix.
  destruct (randn_2_2 s) as [real_part s1]. simpl.
  destruct (randn_2_2 s1) as [imag_part s2]. simpl.
  destruct real_part as [r0 r1 r2 r3], imag_part as [i0 i1 i2 i3].
  split; [reflexivity|].
  split; [by_components; field|].
  split; [by_components; field|].
  split; by_components; field.
Qed.

End SamplerFacts.

(** ** The deviation analysis *)

Lemma Cabs_conj (z : C) : Cabs (Cconj z) = Cabs z.
Proof. unfold Cabs, Cconj. simpl. f_equal. ring. Qed.

Lemma approx_B_diag_hermitian (Bm U : M2 C) :
  Hermitian Bm -> Hermitian (approx_B_diag Bm U).
Proof.
  intros HB. apply Hermitian_entries in HB.
  destruct HB as (B1 & B2 & B3 & B4).
  destruct Bm as [[b0 c0] [b1 c1] [b2 c2] [b3 c3]].
  destruct U as [[u0 v0] [u1 v1] [u2 v2] [u3 v3]].
  simpl in B1, B2, B3, B4. subst c0 c3 b2 c2.
  unfold Hermitian. by_components; ring.
Qed.

(** C8.  For a Hermitian [B] and a unitary [U], the rotated matrix
    [U† B U] is Hermitian: its (1,0) entry is the complex conjugate of
    its (0,1) entry and both have the same magnitude. *)
Theorem approx_B_diag_off_diagonal (Bm U : M2 C) :
  Hermitian Bm -> Unitary U ->
  Hermitian (approx_B_diag Bm U) /\
  m10 (approx_B_diag Bm U) = Cconj (m01 (approx_B_diag Bm U)) /\
  Cabs (m10 (approx_B_diag Bm U)) = Cabs (m01 (approx_B_diag Bm U)).
Proof.
  intros HB _.
  pose proof (approx_B_diag_hermitian Bm U HB) as Hh.
  assert (E : m10 (approx_B_diag Bm U) = Cconj (m01 (approx_B_diag Bm U))).
  { apply Hermitian_entries in Hh. destruct Hh as (_ & _ & E3 & E4).
    apply C_eq; simpl in *; lra. }
  split; [exact Hh|]. split; [exact E|].
  rewrite E. apply Cabs_conj.
Qed.

Lemma approx_B_diag_off_diagonal_witness :
  Hermitian (approx_B_diag skew_hermitian_sample swap_i) /\
  m10 (approx_B_diag skew_hermitian_sample swap_i)
    = Cconj (m01 (approx_B_diag skew_hermitian_sample swap_i)) /\
  Cabs (m10 (approx_B_diag skew_hermitian_sample swap_i))
    = Cabs (m01 (approx_B_diag skew_hermitian_sample swap_i)).
Proof.
  apply (approx_B_diag_off_diagonal skew_hermitian_sample swap_i).
  - unfold Hermitian. by_components; lra.
  - unfold Unitary. by_components; lra.
Defined.

Lemma index_in_range {X : Type} (l : list X) (n : nat) :
  (n < length l)%nat -> exists x, index l n = Ok x /\ nth_error l n = Some x.
Proof.
  intros Hlt. unfold index.
  destruct (nth_error l n) as [x|] eqn:E.
  - exists x. split; reflexivity.
  - apply nth_error_None in E. lia.
Qed.

Lemma skipn_unfold {X : Type} (l : list X) (n : nat) (x : X) :
  nth_error l n = Some x -> skipn n l = x :: skipn (S n) l.
Proof.
  revert l. induction n as [|n IH]; intros [|y l] E; simpl in *; try discriminate.
  - injection E as ->. reflexivity.
  - apply IH. exact E.
Qed.

Lemma analysis_loop (m : nat) : forall (k : nat) (g : Env),
  (k + m <= length (T_list g))%nat ->
  (k + m <= length (U_T_list g))%nat ->
  exists g',
    for_each analysis_body (seq k m) g = Done g' /\
    approx_B_diag_list g' =
      approx_B_diag_list g
      ++ map (approx_B_diag (B g)) (firstn m (skipn k (U_T_list g))) /\
    off_diag_elements_of_approx_B_list g' =
      off_diag_elements_of_approx_B_list g
      ++ map (fun U => Cabs (m01 (approx_B_diag (B g) U)))
             (firstn m (skipn k (U_T_list g))) /\
    B g' = B g /\ T_list g' = T_list g /\ U_T_list g' = U_T_list g.
Proof.
  induction m as [|m IH]; intros k g HT HU.
  - exists g. simpl. rewrite !app_nil_r. repeat split; reflexivity.
  - simpl. unfold analysis_body at 1.
    destruct (index_in_range (T_list g) k) as (Tv & -> & _); [lia|].
    destruct (index_in_range (U_T_list g) k) as (U & EU & EU'); [lia|].
    simpl. rewrite EU.
    match goal with
    | |- exists g', for_each _ _ ?g1 = _ /\ _ =>
        destruct (IH (S k) g1) as (g' & Hrun & Ha & Ho & HB & HTl & HUl)
    end; simpl; try lia.
    exists g'. split; [exact Hrun|].
    simpl in Ha, Ho, HB, HTl, HUl.
    rewrite Ha, Ho, (skipn_unfold _ _ _ EU'). simpl.
    rewrite <- !app_assoc. repeat split; assumption.
Qed.

(** C4.  Given a terminal matrix for every swept [T], the analysis cell
    runs to its end and, for each of them in order, stores
    [U(T)† @ B @ U(T)], the conjugate transpose being the left factor,
    and reports the magnitude of the (0,1) entry of that matrix. *)
Theorem analysis_cell_reports_off_diagonal (g : Env) :
  (length (T_list g) <= length (U_T_list g))%nat ->
  exists g',
    analysis_cell g = Done g' /\
    approx_B_diag_list g' =
      map (fun U => matmul (matmul (T_then_conj U) (B g)) U)
          (firstn (length (T_list g)) (U_T_list g)) /\
    off_diag_elements_of_approx_B_list g' =
      map (fun U => Cabs (m01 (matmul (matmul (T_then_conj U) (B g)) U)))
          (firstn (length (T_list g)) (U_T_list g)).
Proof.
  intros Hlen. unfold analysis_cell. simpl.
  match goal with
  | |- exists g', for_each _ (seq 0 ?n) ?g1 = _ /\ _ =>
      destruct (analysis_loop n 0 g1) as (g' & Hrun & Ha & Ho & _)
  end; simpl; try lia.
  exists g'. split; [exact Hrun|]. split; assumption.
Qed.

Lemma analysis_cell_reports_off_diagonal_witness :
  exists g',
    analysis_cell (set_U_T_list (set_T_list (scenario 1) [1]) [swap_i])
      = Done g' /\
    approx_B_diag_list g' =
      [matmul (matmul (T_then_conj swap_i) pauli_x) swap_i] /\
    off_diag_elements_of_approx_B_list g' =
      [Cabs (m01 (matmul (matmul (T_then_conj swap_i) pauli_x) swap_i))].
Proof.
  apply (analysis_cell_reports_off_diagonal
           (set_U_T_list (set_T_list (scenario 1) [1]) [swap_i])).
  simpl. lia.
Defined.

(** ** Loops *)

Lemma for_each_preserves {X Y : Type} (proj : Env -> Y)
  (body : X -> Env -> outcome) :
  (forall x g, proj (final (body x g)) = proj g) ->
  forall l g, proj (final (for_each body l g)) = proj g.
Proof.
  intros Hbody. induction l as [|x l IH]; intros g; simpl.
  - reflexivity.
  - specialize (Hbody x g). destruct (body x g) as [g'|e g']; simpl in *.
    + rewrite IH. exact Hbody.
    + exact Hbody.
Qed.

Lemma last_cons_default {X : Type} (l : list X) : forall x d d' : X,
  last (x :: l) d = last (x :: l) d'.
Proof.
  induction l as [|y l IH]; intros x d d'.
  - reflexivity.
  - change (last (y :: l) d = last (y :: l) d'). apply IH.
Qed.

Lemma mapM_Permutation {X Y : Type} (f : X -> result Y) (l l' : list X) :
  Permutation l l' ->
  forall ys, mapM f l = Ok ys ->
  exists ys', mapM f l' = Ok ys' /\ Permutation (combine l ys) (combine l' ys').
Proof.
  induction 1 as [|x l l' Hp IH|x y l|l l' l'' Hp1 IH1 Hp2 IH2]; intros ys Hys.
  - exists []. split; [reflexivity|]. simpl. constructor.
  - simpl in Hys. destruct (f x) as [u|] eqn:Ex; [|discriminate].
    destruct (mapM f l) as [us|] eqn:El; [|discriminate].
    simpl in Hys. injection Hys as <-.
    destruct (IH us eq_refl) as (us' & E' & Hperm).
    exists (u :: us'). simpl. rewrite Ex, E'. simpl.
    split; [reflexivity|]. apply perm_skip. exact Hperm.
  - simpl in Hys. destruct (f y) as [v|] eqn:Ey; [|discriminate].
    destruct (f x) as [u|] eqn:Ex; [|discriminate].
    destruct (mapM f l) as [us|] eqn:El; [|discriminate].
    simpl in Hys. injection Hys as <-.
    exists (u :: v :: us). simpl. rewrite Ex, Ey, El. simpl.
    split; [reflexivity|]. apply perm_swap.
  - destruct (IH1 ys Hys) as (ys' & E' & Hperm').
    destruct (IH2 ys' E') as (ys'' & E'' & Hperm'').
    exists ys''. split; [exact E''|].
    eapply perm_trans; eassumption.
Qed.

Lemma analysis_body_preserves (j : nat) (g : Env) :
  (fun e => (A e, B e, U_A e, U_T_list e)) (final (analysis_body j g))
  = (A g, B g, U_A g, U_T_list g).
Proof.
  unfold analysis_body.
  destruct (index (T_list g) j); simpl; [|reflexivity].
  destruct (index (U_T_list g) j); reflexivity.
Qed.

(** ** The evaluation grid and the extraction of the final column *)

Lemma linspace_length (start stop : R) (num : nat) :
  length (linspace start stop num) = num.
Proof.
  unfold linspace. destruct (1 <? num)%nat eqn:E.
  - apply Nat.ltb_lt in E.
    rewrite length_app, removelast_firstn_len, length_firstn.
    rewrite length_map, length_seq. simpl. lia.
  - rewrite length_map, length_seq. reflexivity.
Qed.

Lemma index_constant_row (v : R) (l : list R) (n : nat) :
  (n < length l)%nat -> index (map (fun _ => v) l) n = Ok v.
Proof.
  intros Hlt. unfold index. rewrite nth_error_map.
  destruct (nth_error l n) eqn:E; [reflexivity|].
  apply nth_error_None in E. lia.
Qed.

Lemma flat_roundtrip (M : M2 C) : flat_to_matrix (matrix_to_flat M) = Ok M.
Proof.
  unfold flat_to_matrix, matrix_to_flat.
  rewrite real_imag_roundtrip. destruct M; reflexivity.
Qed.

(** Reading column [num_values] of an array whose rows are constant. *)
Lemma extract_constant_rows (U : M2 C) (grid ts : list R) (ok : bool) :
  (num_values < length grid)%nat ->
  extract_U_T
    (mkOdeResult ts (map (fun v => map (fun _ => v) grid) (matrix_to_flat U)) ok)
  = Ok U.
Proof.
  intros Hlen. unfold extract_U_T. cbn [sol_y].
  unfold matrix_to_flat, complex_to_real_imag, flatten.
  cbn [map app seq mapM index nth_error bind].
  rewrite !index_constant_row by exact Hlen.
  cbn [bind].
  change (flat_to_matrix (matrix_to_flat U) = Ok U).
  apply flat_roundtrip.
Qed.

Lemma frozen_solver_integrate (Am Bm Um : M2 C) (Tv : R) :
  integrate frozen_solver Am Bm Um Tv = Ok Um.
Proof.
  unfold integrate, frozen_solver. cbn [bind].
  apply extract_constant_rows. rewrite linspace_length.
  unfold num_values. lia.
Qed.

(** ** The sweep *)

Section SweepFacts.

Variable solve_ivp :
  (R -> list R -> result (list R)) -> R * R -> list R -> list R ->
  result OdeResult.

Lemma sweep_body_integrate (Tv : R) (g : Env) :
  U_A_flat g = matrix_to_flat (U_A g) ->
  sweep_body solve_ivp Tv g =
    match integrate solve_ivp (A g) (B g) (U_A g) Tv with
    | Ok U => Done (set_U_T_list (set_T g Tv) (U_T_list g ++ [U]))
    | Raise e => Raised e (set_T g Tv)
    end.
Proof.
  intros Hflat. unfold sweep_body, integrate. simpl. rewrite Hflat.
  reflexivity.
Qed.

(** What a run of the loop leaves behind, whether it completes or not. *)
Lemma sweep_loop (Ts : list R) : forall g : Env,
  U_A_flat g = matrix_to_flat (U_A g) ->
  exists Us,
    U_T_list (final (for_each (sweep_body solve_ivp) Ts g)) = U_T_list g ++ Us /\
    Forall2 (fun Tv U => integrate solve_ivp (A g) (B g) (U_A g) Tv = Ok U)
            (firstn (length Us) Ts) Us /\
    A (final (for_each (sweep_body solve_ivp) Ts g)) = A g /\
    B (final (for_each (sweep_body solve_ivp) Ts g)) = B g /\
    U_A (final (for_each (sweep_body solve_ivp) Ts g)) = U_A g /\
    T_list (final (for_each (sweep_body solve_ivp) Ts g)) = T_list g /\
    match for_each (sweep_body solve_ivp) Ts g with
    | Done g' =>
        pure_sweep solve_ivp (A g) (B g) (U_A g) Ts = Ok Us /\
        T g' = last Ts (T g)
    | Raised e g' =>
        pure_sweep solve_ivp (A g) (B g) (U_A g) Ts = Raise e /\
        nth_error Ts (length Us) = Some (T g') /\
        integrate solve_ivp (A g) (B g) (U_A g) (T g') = Raise e
    end.
Proof.
  induction Ts as [|Tv Ts IH]; intros g Hflat.
  - exists []. simpl. rewrite app_nil_r. repeat split; constructor.
  - simpl. rewrite (sweep_body_integrate Tv g Hflat).
    destruct (integrate solve_ivp (A g) (B g) (U_A g) Tv) as [U|e] eqn:EU.
    + destruct (IH (set_U_T_list (set_T g Tv) (U_T_list g ++ [U])) Hflat)
        as (Us & HU & HF & HA & HB & HUA & HTl & Hm).
      simpl in HU, HF, HA, HB, HUA, HTl, Hm.
      exists (U :: Us). simpl. rewrite HU, <- app_assoc.
      split; [reflexivity|]. split; [constructor; assumption|].
      repeat (split; [assumption|]).
      unfold pure_sweep in *. simpl. rewrite EU. simpl.
      destruct (for_each (sweep_body solve_ivp) Ts _) as [g'|e g'].
      * destruct Hm as [-> ->]. split; [reflexivity|].
        destruct Ts as [|Tv' Ts]; [reflexivity|].
        apply last_cons_default.
      * destruct Hm as (-> & Hn & Hi). repeat split; assumption.
    + exists []. simpl. rewrite app_nil_r.
      unfold pure_sweep. simpl. rewrite EU.
      repeat split; constructor.
Qed.

(** C2.  The sweep cell appends to [U_T_list], in order, the value of
    [integrate] at each entry of [T_list]: a function of that entry and
    of [A], [B], [U_A] only.  It leaves [A], [B], [U_A] and [T_list] as
    they were, and so does the analysis cell.  A completed sweep is the
    pure map [pure_sweep]; a sweep that raises has recorded the pure
    map's values for the entries before the one that raised, and raises
    what the pure map raises.  The value of [T] before the loop plays no
    part. *)
Theorem sweep_cell_is_pure_map (g : Env) :
  exists Us,
    U_T_list (final (sweep_cell solve_ivp g)) = U_T_list g ++ Us /\
    Forall2 (fun Tv U => integrate solve_ivp (A g) (B g) (U_A g) Tv = Ok U)
            (firstn (length Us) (T_list g)) Us /\
    match sweep_cell solve_ivp g with
    | Done _ => pure_sweep solve_ivp (A g) (B g) (U_A g) (T_list g) = Ok Us
    | Raised e _ => pure_sweep solve_ivp (A g) (B g) (U_A g) (T_list g) = Raise e
    end /\
    (A (final (sweep_cell solve_ivp g)) = A g /\
     B (final (sweep_cell solve_ivp g)) = B g /\
     U_A (final (sweep_cell solve_ivp g)) = U_A g /\
     T_list (final (sweep_cell solve_ivp g)) = T_list g) /\
    (A (final (analysis_cell g)) = A g /\
     B (final (analysis_cell g)) = B g /\
     U_A (final (analysis_cell g)) = U_A g /\
     U_T_list (final (analysis_cell g)) = U_T_list g) /\
    (forall Ts Ts' Vs,
       Permutation Ts Ts' ->
       pure_sweep solve_ivp (A g) (B g) (U_A g) Ts = Ok Vs ->
       exists Vs',
         pure_sweep solve_ivp (A g) (B g) (U_A g) Ts' = Ok Vs' /\
         Permutation (combine Ts Vs) (combine Ts' Vs')).
Proof.
  unfold sweep_cell. simpl.
  destruct (sweep_loop (T_list g) (set_U_A_flat g (matrix_to_flat (U_A g))) eq_refl)
    as (Us & HU & HF & HA & HB & HUA & HTl & Hm).
  simpl in HU, HF, HA, HB, HUA, HTl, Hm.
  exists Us. split; [exact HU|]. split; [exact HF|]. split.
  - destruct (for_each (sweep_body solve_ivp) (T_list g) _); apply Hm.
  - split; [repeat split; assumption|]. split.
    + unfold analysis_cell. simpl.
      pose proof (for_each_preserves
                    (fun e => (A e, B e, U_A e, U_T_list e))
                    analysis_body analysis_body_preserves
                    (seq 0 (length (T_list g)))
                    (set_off_diag (set_approx_B_diag_list g []) [])) as Hp.
      simpl in Hp. injection Hp as -> -> -> ->. repeat split; reflexivity.
    + intros Ts Ts' Vs Hperm. unfold pure_sweep.
      apply mapM_Permutation. exact Hperm.
Qed.

End SweepFacts.

Lemma sweep_cell_is_pure_map_witness :
  exists Vs',
    pure_sweep frozen_solver pauli_z pauli_x midentity [2; 1] = Ok Vs' /\
    Permutation (combine [1; 2] [midentity; midentity]) (combine [2; 1] Vs').
Proof.
  destruct (sweep_cell_is_pure_map frozen_solver (scenario 1))
    as (_ & _ & _ & _ & _ & _ & Hperm).
  apply Hperm.
  - apply perm_swap.
  - unfold pure_sweep. cbn [mapM]. rewrite !frozen_solver_integrate. reflexivity.
Defined.

(** ** Solver failure *)

Lemma mapM_raises {X Y : Type} (f : X -> result Y) (e0 : exn) (l : list X) (x : X) :
  (forall x' e, f x' = Raise e -> e = e0) ->
  In x l -> f x = Raise e0 -> mapM f l = Raise e0.
Proof.
  intros Honly Hin Hx. induction l as [|a l IH]; [contradiction|].
  simpl. destruct (f a) as [y|e] eqn:Ea.
  - destruct Hin as [->|Hin]; [congruence|].
    simpl. rewrite (IH Hin). reflexivity.
  - simpl. f_equal. eapply Honly. exact Ea.
Qed.

Lemma mapM_length {X Y : Type} (f : X -> result Y) (l : list X) :
  forall ys, mapM f l = Ok ys -> length ys = length l.
Proof.
  induction l as [|a l IH]; simpl; intros ys Hys.
  - injection Hys as <-. reflexivity.
  - destruct (f a); [|discriminate]. destruct (mapM f l); [|discriminate].
    simpl in Hys. injection Hys as <-. simpl. f_equal. apply IH. reflexivity.
Qed.

Lemma final_column_raises_IndexError (rows : list (list R)) (i : nat) (e : exn) :
  (row <- index rows i ;; index row num_values) = Raise e -> e = IndexError.
Proof.
  unfold index. destruct (nth_error rows i) as [row|]; cbn [bind].
  - destruct (nth_error row num_values); [discriminate|]. congruence.
  - congruence.
Qed.

(** ** The configured durations and the evaluation grid *)

Lemma T_list_value_nth (j : nat) :
  (j < 18)%nat ->
  nth j T_list_value 0 = Rpower 10 (-1 + 0.25 * INR j).
Proof.
  intros Hj. unfold T_list_value.
  set (f := fun j : nat => Rpower 10 (-1 + INR j * 0.25)).
  rewrite (nth_indep _ 0 (f 0%nat))
    by (rewrite length_map, length_seq; exact Hj).
  rewrite map_nth, seq_nth by exact Hj. unfold f. simpl. f_equal. lra.
Qed.

Lemma fourth_root_of_ten :
  1.778 < Rpower 10 (/ 4) < 1.779.
Proof.
  assert (Hpos : 0 < Rpower 10 (/ 4)) by apply exp_pos.
  assert (H4 : Rpower 10 (/ 4) * Rpower 10 (/ 4)
               * (Rpower 10 (/ 4) * Rpower 10 (/ 4)) = 10).
  { rewrite <- !Rpower_plus.
    replace (/ 4 + / 4 + (/ 4 + / 4)) with 1 by lra.
    apply Rpower_1. lra. }
  set (x := Rpower 10 (/ 4)) in *.
  assert (Hsq : 0 < x * x) by nra.
  split.
  - destruct (Rlt_le_dec 1.778 x) as [Hlt|Hle]; [exact Hlt|exfalso].
    assert (x * x <= 1.778 * 1.778) by nra. nra.
  - destruct (Rlt_le_dec x 1.779) as [Hlt|Hle]; [exact Hlt|exfalso].
    assert (1.779 * 1.779 <= x * x) by nra. nra.
Qed.

Lemma T_list_value_first : nth 0 T_list_value 0 = / 10.
Proof.
  rewrite T_list_value_nth by lia. simpl.
  replace (-1 + 0.25 * 0) with (- (1)) by lra.
  rewrite Rpower_Ropp, Rpower_1 by lra. reflexivity.
Qed.

Lemma T_list_value_last :
  last T_list_value 0 = 1000 * Rpower 10 (/ 4).
Proof.
  unfold T_list_value. cbn [seq map last].
  replace (-1 + INR 17 * 0.25) with (INR 3 + / 4) by (simpl; lra).
  rewrite Rpower_plus, Rpower_pow by lra. f_equal. simpl. lra.
Qed.

Lemma linspace_101 (Tv : R) :
  linspace 0 Tv 101 =
    map (fun k : nat => INR k * (Tv / 100)) (seq 0 100) ++ [Tv].
Proof.
  unfold linspace.
  change (1 <? 101)%nat with true. cbv iota.
  change (seq 0 101) with (seq 0 (S 100)).
  rewrite seq_S, map_app. cbn [map]. rewrite removelast_last.
  f_equal. apply map_ext. intros k.
  replace (INR (101 - 1)) with 100 by (rewrite INR_IZR_INZ; reflexivity).
  destruct (Req_dec_T ((Tv - 0) / 100) 0) as [Hz|Hnz]; [|lra].
  assert (Tv = 0) by lra. subst Tv. lra.
Qed.

Lemma mapM_seq_nth {Y : Type} (f : nat -> result Y) (d : Y) (col : list Y) :
  forall k : nat,
    (forall i, (i < length col)%nat -> f (k + i)%nat = Ok (nth i col d)) ->
    mapM f (seq k (length col)) = Ok col.
Proof.
  induction col as [|y col IH]; intros k Hf.
  - reflexivity.
  - cbn [length seq mapM].
    specialize (Hf 0%nat (Nat.lt_0_succ _)) as H0.
    rewrite Nat.add_0_r in H0. rewrite H0. cbn [nth bind].
    rewrite IH; [reflexivity|].
    intros i Hi. specialize (Hf (S i)).
    rewrite Nat.add_succ_r in Hf. simpl in Hf. apply Hf. simpl. lia.
Qed.

(** C9, as stated, fails in its range: the last of the 18 durations,
    [10^(-1 + 0.25 * 17) = 10^3.25], is above 1778 and nowhere near
    562. *)
Lemma T_list_does_not_end_near_562 :
  1778 < last T_list_value 0 /\ ~ (Rabs (last T_list_value 0 - 562) <= 1000).
Proof.
  pose proof fourth_root_of_ten as [Hlo _].
  rewrite T_list_value_last.
  split; [lra|].
  intros Habs. rewrite Rabs_right in Habs by lra. lra.
Qed.

Section ConfigurationFacts.

Variable solve_ivp :
  (R -> list R -> result (list R)) -> R * R -> list R -> list R ->
  result OdeResult.

(** C9, amended.  The configuration cell binds [T_list] to exactly 18
    durations, [10^(-1 + 0.25 j)] for [j = 0..17], from 0.1 up to
    [10^3.25], which lies between 1778 and 1779.  Each pass hands the
    solver the grid [linspace(0, T, 101)]: 101 points [k * T/100],
    [k = 0..100], the last being [T].  The recorded matrix is the
    decoding of the solver's state at grid index 100: entry [i] of the
    decoded vector is [y[i][100]], for [i = 0..7]. *)
Theorem sweep_configuration :
  (forall g, T_list (config_cell g) = T_list_value) /\
  length T_list_value = 18%nat /\
  (forall j, (j < 18)%nat ->
     nth j T_list_value 0 = Rpower 10 (-1 + 0.25 * INR j)) /\
  nth 0 T_list_value 0 = / 10 /\
  1778 < last T_list_value 0 < 1779 /\
  (forall g Tv,
     sweep_body solve_ivp Tv g =
       match
         solution <- solve_ivp
           (fun t U_flat => matrix_differential_equation t U_flat (H (set_T g Tv)))
           (0, Tv) (U_A_flat g) (linspace 0 Tv 101) ;;
         extract_U_T solution
       with
       | Ok U_T => Done (set_U_T_list (set_T g Tv) (U_T_list g ++ [U_T]))
       | Raise e => Raised e (set_T g Tv)
       end) /\
  (forall Tv,
     length (linspace 0 Tv 101) = 101%nat /\
     (forall k, (k <= 100)%nat ->
        nth k (linspace 0 Tv 101) 0 = INR k * (Tv / 100)) /\
     nth 100 (linspace 0 Tv 101) 0 = Tv) /\
  (forall r col,
     length col = 8%nat ->
     (forall i, (i < 8)%nat ->
        exists row, nth_error (sol_y r) i = Some row
                    /\ nth_error row 100 = Some (nth i col 0)) ->
     extract_U_T r = flat_to_matrix col).
Proof.
  split; [reflexivity|]. split; [reflexivity|].
  split; [exact T_list_value_nth|]. split; [exact T_list_value_first|].
  split; [rewrite T_list_value_last; pose proof fourth_root_of_ten; lra|].
  split; [reflexivity|]. split.
  - intros Tv.
    assert (Hlast : nth 100 (linspace 0 Tv 101) 0 = Tv).
    { rewrite linspace_101, app_nth2
        by (rewrite length_map, length_seq; lia).
      rewrite length_map, length_seq. reflexivity. }
    split; [apply linspace_length|]. split; [|exact Hlast].
    intros k Hk. destruct (Nat.eq_dec k 100) as [->|Hne].
    + rewrite Hlast, INR_IZR_INZ. simpl. lra.
    + rewrite linspace_101, app_nth1
        by (rewrite length_map, length_seq; lia).
      set (f := fun k : nat => INR k * (Tv / 100)).
      rewrite (nth_indep _ 0 (f 0%nat))
        by (rewrite length_map, length_seq; lia).
      rewrite map_nth, seq_nth by lia. reflexivity.
  - intros r col Hlen Hrows. unfold extract_U_T, flat_to_matrix.
    replace (seq 0 8) with (seq 0 (length col)) by (rewrite Hlen; reflexivity).
    rewrite (mapM_seq_nth _ 0 col 0); [reflexivity|].
    intros i Hi. rewrite Hlen in Hi.
    destruct (Hrows i Hi) as (row & Er & Ec).
    unfold index. cbn [Nat.add]. rewrite Er. cbn [bind].
    unfold num_values. rewrite Ec. reflexivity.
Qed.

End ConfigurationFacts.

Lemma sweep_configuration_witness :
  nth 17 T_list_value 0 = Rpower 10 (-1 + 0.25 * INR 17) /\
  nth 50 (linspace 0 2 101) 0 = INR 50 * (2 / 100) /\
  extract_U_T
    (mkOdeResult [] (map (fun v => repeat v 101) [1; 2; 3; 4; 5; 6; 7; 8]) true)
  = flat_to_matrix [1; 2; 3; 4; 5; 6; 7; 8].
Proof.
  destruct (sweep_configuration frozen_solver)
    as (_ & _ & Hnth & _ & _ & _ & Hgrid & Hextract).
  split; [|split].
  - apply Hnth. lia.
  - apply (Hgrid 2). lia.
  - apply Hextract.
    + reflexivity.
    + intros i Hi.
      do 8 (destruct i as [|i]; [eexists; split; reflexivity|]).
      lia.
Defined.

(** ** A solver that fails *)

Lemma mapM_In_ok {X Y : Type} (f : X -> result Y) (l : list X) :
  forall ys x, mapM f l = Ok ys -> In x l -> exists y, f x = Ok y.
Proof.
  induction l as [|a l IH]; intros ys x Hys Hin; [contradiction|].
  simpl in Hys. destruct (f a) as [y|] eqn:Ea; [|discriminate].
  destruct (mapM f l) as [ys'|] eqn:El; [|discriminate].
  destruct Hin as [<-|Hin].
  - exists y. exact Ea.
  - apply (IH ys' x eq_refl Hin).
Qed.

Lemma Forall2_prefix_nth {X Y : Type} (P : X -> Y -> Prop) (Us : list Y) :
  forall (Ts : list X) (j : nat) (x : X),
    Forall2 P (firstn (length Us) Ts) Us ->
    (j < length Us)%nat -> nth_error Ts j = Some x -> exists y, P x y.
Proof.
  induction Us as [|u Us IH]; intros Ts j x HF Hj Hx; simpl in Hj; [lia|].
  destruct Ts as [|t Ts]; [destruct j; discriminate|].
  simpl in HF. inversion HF as [|? ? ? ? Hhead Htail]; subst.
  destruct j as [|j]; simpl in Hx.
  - injection Hx as <-. exists u. exact Hhead.
  - apply (IH Ts j x Htail); [lia|exact Hx].
Qed.

(** No column [num_values] in any row: the extraction raises. *)
Lemma extract_short_rows (r : OdeResult) :
  (forall row, In row (sol_y r) -> (length row <= num_values)%nat) ->
  extract_U_T r = Raise IndexError.
Proof.
  intros Hshort. unfold extract_U_T.
  rewrite (mapM_raises _ IndexError (seq 0 8) 0%nat).
  - reflexivity.
  - intros j e. apply final_column_raises_IndexError.
  - apply in_seq. lia.
  - unfold index at 1.
    destruct (nth_error (sol_y r) 0) as [row|] eqn:Er; [|reflexivity].
    cbn [bind]. unfold index.
    destruct (nth_error row num_values) eqn:Ec; [|reflexivity].
    apply nth_error_In in Er. specialize (Hshort row Er).
    assert (Hn : nth_error row num_values <> None) by congruence.
    apply nth_error_Some in Hn. lia.
Qed.

Lemma patchy_solver_stops_short
  (f : R -> list R -> result (list R)) (t0 tf : R) (y0 grid : list R)
  (r : OdeResult) :
  patchy_solver f (t0, tf) y0 (grid ++ [tf]) = Ok r ->
  sol_success r = false ->
  forall row, In row (sol_y r) -> (length row <= length grid)%nat.
Proof.
  unfold patchy_solver. cbn [snd].
  destruct (Rle_dec tf 1); intros Hr Hs row Hin; injection Hr as <-;
    cbn [sol_success sol_y] in *; [discriminate|].
  apply in_map_iff in Hin. destruct Hin as (v & <- & _).
  rewrite length_map, removelast_last. lia.
Qed.

Section SolverFailure.

Variable solve_ivp :
  (R -> list R -> result (list R)) -> R * R -> list R -> list R ->
  result OdeResult.

(** How the library's solver fails: when it gives up it reports
    non-success and has stopped before the end of the interval, so its
    rows have no column for a last grid point equal to that end. *)
Hypothesis solve_ivp_failure_stops_short :
  forall f t0 tf y0 grid r,
    solve_ivp f (t0, tf) y0 (grid ++ [tf]) = Ok r ->
    sol_success r = false ->
    forall row, In row (sol_y r) -> (length row <= length grid)%nat.

Lemma failed_solution_has_no_final_column (g : Env) (Tv : R) (r : OdeResult) :
  solution_at solve_ivp g Tv = Ok r -> sol_success r = false ->
  extract_U_T r = Raise IndexError.
Proof.
  intros Hsol Hfail. unfold solution_at in Hsol.
  change (num_values + 1)%nat with 101%nat in Hsol.
  rewrite linspace_101 in Hsol.
  apply extract_short_rows. intros row Hin.
  pose proof (solve_ivp_failure_stops_short _ _ _ _ _ _ Hsol Hfail row Hin)
    as Hlen.
  rewrite length_map, length_seq in Hlen. exact Hlen.
Qed.

Lemma failed_pass_raises (g : Env) (Tv : R) (r : OdeResult) :
  solution_at solve_ivp g Tv = Ok r -> sol_success r = false ->
  sweep_body solve_ivp Tv g = Raised IndexError (set_T g Tv).
Proof.
  intros Hsol Hfail.
  change (sweep_body solve_ivp Tv g)
    with (match solution <- solution_at solve_ivp g Tv ;; extract_U_T solution with
          | Ok U => Done (set_U_T_list (set_T g Tv) (U_T_list g ++ [U]))
          | Raise e => Raised e (set_T g Tv)
          end).
  rewrite Hsol. cbn [bind].
  rewrite (failed_solution_has_no_final_column g Tv r Hsol Hfail).
  reflexivity.
Qed.

(** C1.  When the solver reports non-success for a swept [T], that
    pass raises IndexError with [T] bound to the failed duration and
    appends nothing to [U_T_list]: it never ends the way a pass that
    computed a terminal matrix does.  The run is fatal: the sweep
    stops with an exception at the first duration whose pass raises,
    [U_T_list] has gained exactly one matrix for each duration before
    that one, and the failed duration is not among them.  An exception
    raised by the solver itself ends the pass in the same way. *)
Theorem solver_failure_is_fatal :
  (forall g Tv r,
     solution_at solve_ivp g Tv = Ok r -> sol_success r = false ->
     sweep_body solve_ivp Tv g = Raised IndexError (set_T g Tv) /\
     forall U, sweep_body solve_ivp Tv g
               <> Done (set_U_T_list (set_T g Tv) (U_T_list g ++ [U]))) /\
  (forall g Tv e,
     solution_at solve_ivp g Tv = Raise e ->
     sweep_body solve_ivp Tv g = Raised e (set_T g Tv)) /\
  (forall g Tv r,
     In Tv (T_list g) ->
     solution_at solve_ivp (set_U_A_flat g (matrix_to_flat (U_A g))) Tv = Ok r ->
     sol_success r = false ->
     exists e g' Us,
       sweep_cell solve_ivp g = Raised e g' /\
       U_T_list g' = U_T_list g ++ Us /\
       nth_error (T_list g) (length Us) = Some (T g') /\
       forall j, nth_error (T_list g) j = Some Tv -> (length Us <= j)%nat).
Proof.
  split; [|split].
  - intros g Tv r Hsol Hfail.
    rewrite (failed_pass_raises g Tv r Hsol Hfail).
    split; [reflexivity|discriminate].
  - intros g Tv e Hsol.
    change (sweep_body solve_ivp Tv g)
      with (match solution <- solution_at solve_ivp g Tv ;; extract_U_T solution with
            | Ok U => Done (set_U_T_list (set_T g Tv) (U_T_list g ++ [U]))
            | Raise e => Raised e (set_T g Tv)
            end).
    rewrite Hsol. reflexivity.
  - intros g Tv r Hin Hsol Hfail.
    assert (Hi : integrate solve_ivp (A g) (B g) (U_A g) Tv = Raise IndexError).
    { change (integrate solve_ivp (A g) (B g) (U_A g) Tv)
        with (solution <- solution_at solve_ivp
                            (set_U_A_flat g (matrix_to_flat (U_A g))) Tv ;;
              extract_U_T solution).
      rewrite Hsol. cbn [bind].
      exact (failed_solution_has_no_final_column _ Tv r Hsol Hfail). }
    unfold sweep_cell. cbn zeta.
    destruct (sweep_loop solve_ivp
                (T_list (set_U_A_flat g (matrix_to_flat (U_A g))))
                (set_U_A_flat g (matrix_to_flat (U_A g))) eq_refl)
      as (Us & HU & HF & _ & _ & _ & _ & Hm).
    cbn [T_list U_T_list A B U_A set_U_A_flat] in *.
    destruct (for_each (sweep_body solve_ivp) (T_list g) _) as [g'|e g'];
      cbn [final] in HU.
    + destruct Hm as [Hp _]. unfold pure_sweep in Hp.
      destruct (mapM_In_ok _ _ _ _ Hp Hin) as (U & EU). congruence.
    + destruct Hm as (_ & Hn & _).
      exists e, g', Us. split; [reflexivity|]. split; [exact HU|].
      split; [exact Hn|].
      intros j Hj. destruct (Nat.le_gt_cases (length Us) j) as [Hle|Hlt];
        [exact Hle|exfalso].
      destruct (Forall2_prefix_nth _ Us (T_list g) j Tv HF Hlt Hj) as (U & EU).
      congruence.
Qed.

End SolverFailure.

Lemma solver_failure_is_fatal_witness :
  (sweep_body patchy_solver 2 (scenario 1) = Raised IndexError (set_T (scenario 1) 2) /\
   forall U, sweep_body patchy_solver 2 (scenario 1)
             <> Done (set_U_T_list (set_T (scenario 1) 2)
                        (U_T_list (scenario 1) ++ [U]))) /\
  (exists e g' Us,
     sweep_cell patchy_solver (set_T_list (scenario 1) [1; 2; 3]) = Raised e g' /\
     U_T_list g' = U_T_list (set_T_list (scenario 1) [1; 2; 3]) ++ Us /\
     nth_error (T_list (set_T_list (scenario 1) [1; 2; 3])) (length Us)
       = Some (T g') /\
     forall j, nth_error (T_list (set_T_list (scenario 1) [1; 2; 3])) j = Some 2 ->
               (length Us <= j)%nat).
Proof.
  split.
  - eapply (proj1 (solver_failure_is_fatal patchy_solver patchy_solver_stops_short)).
    + unfold solution_at, patchy_solver. cbn [snd].
      destruct (Rle_dec 2 1) as [Hle|_]; [exfalso; lra|reflexivity].
    + reflexivity.
  - eapply (proj2 (proj2 (solver_failure_is_fatal patchy_solver
                            patchy_solver_stops_short))).
    + simpl. right. left. reflexivity.
    + unfold solution_at, patchy_solver. cbn [snd].
      destruct (Rle_dec 2 1) as [Hle|_]; [exfalso; lra|reflexivity].
    + reflexivity.
Defined.

(** The same run written out: the duration 1 is integrated and
    recorded, the duration 2 fails and stops the sweep, the duration 3
    is never tried. *)
Lemma patchy_sweep_stops_at_two :
  sweep_cell patchy_solver (set_T_list (scenario 1) [1; 2; 3])
  = Raised IndexError
      (set_U_T_list
         (set_T (set_U_A_flat (set_T_list (scenario 1) [1; 2; 3])
                   (matrix_to_flat midentity)) 2)
         [midentity]).
Proof.
  unfold sweep_cell. cbn zeta.
  change (T_list (set_U_A_flat (set_T_list (scenario 1) [1; 2; 3])
                    (matrix_to_flat (U_A (set_T_list (scenario 1) [1; 2; 3])))))
    with [1; 2; 3].
  cbn [for_each].
  set (g0 := set_U_A_flat (set_T_list (scenario 1) [1; 2; 3])
               (matrix_to_flat (U_A (set_T_list (scenario 1) [1; 2; 3])))).
  assert (H1 : sweep_body patchy_solver 1 g0
               = Done (set_U_T_list (set_T g0 1) [midentity])).
  { unfold sweep_body, patchy_solver. cbn [snd].
    destruct (Rle_dec 1 1) as [_|Hn]; [|exfalso; lra]. cbn [bind].
    change (U_A_flat (set_T g0 1)) with (matrix_to_flat midentity).
    rewrite extract_constant_rows; [reflexivity|].
    rewrite linspace_length. unfold num_values. lia. }
  rewrite H1.
  assert (H2 : sweep_body patchy_solver 2 (set_U_T_list (set_T g0 1) [midentity])
               = Raised IndexError
                   (set_T (set_U_T_list (set_T g0 1) [midentity]) 2)).
  { eapply (failed_pass_raises patchy_solver patchy_solver_stops_short).
    - unfold solution_at, patchy_solver. cbn [snd].
      destruct (Rle_dec 2 1) as [Hle|_]; [exfalso; lra|reflexivity].
    - reflexivity. }
  rewrite H2. reflexivity.
Qed.

(** * Further properties of the cells *)

(** ** The decoder on vectors of any length *)

Lemma zip_with_length {X Y Z : Type} (f : X -> Y -> Z) (a : list X) :
  forall b : list Y, length (zip_with f a b) = Nat.min (length a) (length b).
Proof.
  induction a as [|x a IH]; intros [|y b]; simpl; try reflexivity.
  rewrite IH. reflexivity.
Qed.

Lemma half_bounds (n : nat) :
  (n = 2 * (n / 2) \/ n = 2 * (n / 2) + 1)%nat.
Proof.
  pose proof (Nat.div_mod_eq n 2) as Hd.
  pose proof (Nat.mod_upper_bound n 2 ltac:(discriminate)) as Hm.
  lia.
Qed.

Lemma real_imag_to_complex_cases (v : list R) :
  match real_imag_to_complex v with
  | Ok x => (length v = 2 * length x)%nat
            \/ (length v = 1%nat /\ x = [])
            \/ (length v = 3%nat /\ length x = 2%nat)
  | Raise e => e = ValueError /\ (5 <= length v)%nat
               /\ (length v = 2 * (length v / 2) + 1)%nat
  end.
Proof.
  unfold real_imag_to_complex.
  pose proof (half_bounds (length v)) as Hh.
  set (n := (length v / 2)%nat) in *.
  assert (Ha : length (firstn n v) = n) by (rewrite length_firstn; lia).
  assert (Hb : length (map (fun x => Cmul Ci (RtoC x)) (skipn n v))
               = (length v - n)%nat)
    by (rewrite length_map, length_skipn; reflexivity).
  unfold broadcast.
  destruct (Nat.eqb_spec (length (firstn n v))
              (length (map (fun x => Cmul Ci (RtoC x)) (skipn n v)))) as [E|E].
  - left. rewrite zip_with_length. lia.
  - destruct (firstn n v) as [|a0 [|a1 a]];
      destruct (map (fun x => Cmul Ci (RtoC x)) (skipn n v)) as [|b0 [|b1 b]];
      simpl in *; try lia.
    + right. left. split; [lia|reflexivity].
    + right. right. rewrite length_map in *. split; lia.
    + split; [reflexivity|]. lia.
Qed.

Lemma reshape22_wrong_length {X : Type} (x : list X) :
  length x <> 4%nat -> reshape22 x = Raise ValueError.
Proof.
  destruct x as [|a [|b [|c [|d [|e x]]]]]; simpl; intros Hlen;
    try reflexivity.
  contradiction.
Qed.

Lemma flat_to_matrix_length_8 (v : list R) :
  length v = 8%nat -> exists M, flat_to_matrix v = Ok M.
Proof.
  intros Hlen.
  destruct v as [|a0 [|a1 [|a2 [|a3 [|a4 [|a5 [|a6 [|a7 [|a8 v]]]]]]]]];
    try discriminate.
  eexists. reflexivity.
Qed.

Lemma flat_to_matrix_wrong_length (v : list R) :
  length v <> 8%nat -> flat_to_matrix v = Raise ValueError.
Proof.
  intros Hlen. unfold flat_to_matrix.
  pose proof (real_imag_to_complex_cases v) as Hc.
  destruct (real_imag_to_complex v) as [x|e]; cbn [bind].
  - apply reshape22_wrong_length.
    destruct Hc as [Hc|[[_ ->]|[_ Hc]]]; simpl; lia.
  - destruct Hc as [-> _]. reflexivity.
Qed.

(** X1.  [flat_to_matrix] accepts exactly the real vectors of length 8:
    on these it returns a matrix, on a vector of any other length it
    raises ValueError. *)
Theorem flat_to_matrix_domain (v : list R) :
  (length v = 8%nat -> exists M, flat_to_matrix v = Ok M) /\
  (length v <> 8%nat -> flat_to_matrix v = Raise ValueError).
Proof.
  split.
  - apply flat_to_matrix_length_8.
  - apply flat_to_matrix_wrong_length.
Qed.

Lemma flat_to_matrix_domain_witness :
  (exists M, flat_to_matrix [1; 2; 3; 4; 5; 6; 7; 8] = Ok M) /\
  flat_to_matrix [1; 2; 3] = Raise ValueError /\
  flat_to_matrix [1; 2; 3; 4; 5; 6] = Raise ValueError.
Proof.
  split; [|split].
  - apply (proj1 (flat_to_matrix_domain [1; 2; 3; 4; 5; 6; 7; 8])). reflexivity.
  - apply (proj2 (flat_to_matrix_domain [1; 2; 3])). simpl. lia.
  - apply (proj2 (flat_to_matrix_domain [1; 2; 3; 4; 5; 6])). simpl. lia.
Defined.

(** X2.  [real_imag_to_complex] by the length of its argument.  On
    length [2n] it returns [n] numbers, the [k]-th being
    [v[k] + i v[n+k]].  On an odd length of 5 or more the two slices
    cannot be added and it raises ValueError.  The odd lengths 1 and 3 do
    not raise: broadcasting returns the empty vector for [[a]], and
    [[a + i b, a + i c]] for [[a, b, c]]. *)
Theorem real_imag_to_complex_by_length (v : list R) :
  (forall n, length v = (2 * n)%nat ->
     exists x, real_imag_to_complex v = Ok x /\ length x = n /\
       forall k, (k < n)%nat ->
         nth k x (RtoC 0) = mkC (nth k v 0) (nth (n + k) v 0)) /\
  (forall n, (2 <= n)%nat -> length v = (2 * n + 1)%nat ->
     real_imag_to_complex v = Raise ValueError) /\
  (length v = 1%nat -> real_imag_to_complex v = Ok []) /\
  (forall a b c, v = [a; b; c] ->
     real_imag_to_complex v = Ok [mkC a b; mkC a c]).
Proof.
  split; [|split; [|split]].
  - intros n Hlen.
    destruct (real_imag_roundtrip_back v n) as (x & Ex & Ev); [lia|].
    exists x. split; [exact Ex|].
    unfold complex_to_real_imag in Ev.
    assert (Hx : length x = n).
    { apply (f_equal (@length R)) in Ev.
      rewrite length_app, !length_map in Ev. lia. }
    split; [exact Hx|]. intros k Hk. rewrite <- Ev.
    rewrite app_nth1 by (rewrite length_map; lia).
    rewrite app_nth2 by (rewrite length_map; lia).
    rewrite length_map, Hx.
    replace (n + k - n)%nat with k by lia.
    pose proof (map_nth Re x (RtoC 0) k) as HRe.
    pose proof (map_nth Im x (RtoC 0) k) as HIm.
    cbn [Re Im RtoC] in HRe, HIm. rewrite HRe, HIm.
    apply C_eq; reflexivity.
  - intros n Hn Hlen.
    pose proof (real_imag_to_complex_cases v) as Hc.
    destruct (real_imag_to_complex v) as [x|e].
    + destruct Hc as [Hc|[[Hc _]|[Hc _]]]; lia.
    + destruct Hc as [-> _]. reflexivity.
  - intros Hlen.
    pose proof (real_imag_to_complex_cases v) as Hc.
    destruct (real_imag_to_complex v) as [x|e].
    + destruct Hc as [Hc|[[_ ->]|[Hc _]]]; [lia|reflexivity|lia].
    + destruct Hc as (_ & Hc & _). lia.
  - intros a b c ->. unfold real_imag_to_complex, broadcast. simpl.
    repeat f_equal; by_components; lra.
Qed.

Lemma real_imag_to_complex_by_length_witness :
  (exists x, real_imag_to_complex [1; 2; 3; 4] = Ok x /\ length x = 2%nat /\
     forall k, (k < 2)%nat ->
       nth k x (RtoC 0) = mkC (nth k [1; 2; 3; 4] 0) (nth (2 + k) [1; 2; 3; 4] 0)) /\
  real_imag_to_complex [1; 2; 3; 4; 5] = Raise ValueError /\
  real_imag_to_complex [7] = Ok [] /\
  real_imag_to_complex [1; 2; 3] = Ok [mkC 1 2; mkC 1 3].
Proof.
  split; [|split; [|split]].
  - apply (proj1 (real_imag_to_complex_by_length [1; 2; 3; 4]) 2%nat).
    reflexivity.
  - apply (proj1 (proj2 (real_imag_to_complex_by_length [1; 2; 3; 4; 5])) 2%nat).
    + lia.
    + reflexivity.
  - apply (proj1 (proj2 (proj2 (real_imag_to_complex_by_length [7])))).
    reflexivity.
  - apply (proj2 (proj2 (proj2 (real_imag_to_complex_by_length [1; 2; 3])))).
    reflexivity.
Defined.

(** ** The right-hand side of the matrix equation *)

Lemma matrix_to_flat_length (M : M2 C) : length (matrix_to_flat M) = 8%nat.
Proof. reflexivity. Qed.

(** X3.  The right-hand side handed to the solver is a map from
    [R x R^8] to [R^8] for every duration [T <> 0]: on a state of length
    8 it returns a vector of length 8 at every time [t].  A state of any
    other length raises ValueError, whatever the Hamiltonian. *)
Theorem matrix_differential_equation_on_R8 :
  (forall t U_flat H_func,
     length U_flat <> 8%nat ->
     matrix_differential_equation t U_flat H_func = Raise ValueError) /\
  (forall g Tv t U_flat,
     Tv <> 0 -> length U_flat = 8%nat ->
     exists d, matrix_differential_equation t U_flat (H (set_T g Tv)) = Ok d
               /\ length d = 8%nat).
Proof.
  split.
  - intros t U_flat H_func Hlen. unfold matrix_differential_equation.
    rewrite (flat_to_matrix_wrong_length _ Hlen). reflexivity.
  - intros g Tv t U_flat HT Hlen. unfold matrix_differential_equation.
    destruct (flat_to_matrix_length_8 _ Hlen) as (U & ->). cbn [bind].
    rewrite H_value by exact HT. cbn [bind].
    eexists. split; [reflexivity|]. apply matrix_to_flat_length.
Qed.

Lemma matrix_differential_equation_on_R8_witness :
  matrix_differential_equation 1 [1; 2; 3] (H (scenario 2)) = Raise ValueError /\
  (exists d,
     matrix_differential_equation 1 [1; 2; 3; 4; 5; 6; 7; 8]
       (H (set_T (scenario 0) 2)) = Ok d /\ length d = 8%nat).
Proof.
  split.
  - apply (proj1 matrix_differential_equation_on_R8). simpl. lia.
  - apply (proj2 matrix_differential_equation_on_R8).
    + lra.
    + reflexivity.
Defined.

(** X4.  The right-hand side is linear in the state: at a time where
    the Hamiltonian has a value, the derivative of [a u + b v] is
    [a] times the derivative of [u] plus [b] times that of [v], for
    states [u], [v] of length 8 and real [a], [b]. *)
Theorem matrix_differential_equation_linear
  (t : R) (H_func : R -> result (M2 C)) (Ht : M2 C) (u v : list R) (a b : R) :
  H_func t = Ok Ht -> length u = 8%nat -> length v = 8%nat ->
  exists du dv,
    matrix_differential_equation t u H_func = Ok du /\
    matrix_differential_equation t v H_func = Ok dv /\
    matrix_differential_equation t
      (zip_with Rplus (map (Rmult a) u) (map (Rmult b) v)) H_func
    = Ok (zip_with Rplus (map (Rmult a) du) (map (Rmult b) dv)).
Proof.
  intros HH Hu Hv.
  destruct u as [|u0 [|u1 [|u2 [|u3 [|u4 [|u5 [|u6 [|u7 [|u8 u]]]]]]]]];
    try discriminate.
  destruct v as [|v0 [|v1 [|v2 [|v3 [|v4 [|v5 [|v6 [|v7 [|v8 v]]]]]]]]];
    try discriminate.
  destruct Ht as [[h0 k0] [h1 k1] [h2 k2] [h3 k3]].
  unfold matrix_differential_equation. rewrite HH.
  eexists. eexists. split; [reflexivity|]. split; [reflexivity|].
  cbn. apply f_equal.
  repeat (apply (f_equal2 (@cons R)); [ring|]). reflexivity.
Qed.

Lemma matrix_differential_equation_linear_witness :
  exists du dv,
    matrix_differential_equation 1 [1; 0; 0; 1; 0; 0; 0; 0] (H (scenario 2)) = Ok du /\
    matrix_differential_equation 1 [0; 1; 1; 0; 0; 0; 0; 0] (H (scenario 2)) = Ok dv /\
    matrix_differential_equation 1
      (zip_with Rplus (map (Rmult 3) [1; 0; 0; 1; 0; 0; 0; 0])
                      (map (Rmult 5) [0; 1; 1; 0; 0; 0; 0; 0])) (H (scenario 2))
    = Ok (zip_with Rplus (map (Rmult 3) du) (map (Rmult 5) dv)).
Proof.
  apply (matrix_differential_equation_linear 1 (H (scenario 2))
           (madd (mscale (RtoC (1 - 1 / 2)) pauli_z)
                 (mscale (RtoC (1 / 2)) pauli_x))).
  - apply H_value. simpl. lra.
  - reflexivity.
  - reflexivity.
Defined.

Lemma interpolation_hermitian (Am Bm : M2 C) (a b : R) :
  Hermitian Am -> Hermitian Bm ->
  Hermitian (madd (mscale (RtoC a) Am) (mscale (RtoC b) Bm)).
Proof.
  intros HA HB.
  apply Hermitian_entries in HA. apply Hermitian_entries in HB.
  destruct HA as (A1 & A2 & A3 & A4). destruct HB as (B1 & B2 & B3 & B4).
  unfold Hermitian.
  by_components; rewrite ?A1, ?A2, ?A3, ?A4, ?B1, ?B2, ?B3, ?B4; ring.
Qed.

Lemma generator_skew (Hm U : M2 C) :
  Hermitian Hm ->
  madd (matmul (T_then_conj (matmul (mscale (Cneg Ci) Hm) U)) U)
       (matmul (T_then_conj U) (matmul (mscale (Cneg Ci) Hm) U)) = mzero.
Proof.
  intros HH. apply Hermitian_entries in HH.
  destruct HH as (E1 & E2 & E3 & E4).
  destruct Hm as [[h0 k0] [h1 k1] [h2 k2] [h3 k3]].
  destruct U as [[u0 v0] [u1 v1] [u2 v2] [u3 v3]].
  simpl in E1, E2, E3, E4. subst k0 k3 h2 k2.
  by_components; ring.
Qed.

Lemma generator_skew_right (Hm U : M2 C) :
  Hermitian Hm -> Unitary U ->
  madd (matmul (matmul (mscale (Cneg Ci) Hm) U) (T_then_conj U))
       (matmul U (T_then_conj (matmul (mscale (Cneg Ci) Hm) U))) = mzero.
Proof.
  intros HH HU.
  assert (Hfactor :
    madd (matmul (matmul (mscale (Cneg Ci) Hm) U) (T_then_conj U))
         (matmul U (T_then_conj (matmul (mscale (Cneg Ci) Hm) U)))
    = madd (matmul (mscale (Cneg Ci) Hm) (matmul U (T_then_conj U)))
           (matmul (matmul U (T_then_conj U))
                   (T_then_conj (mscale (Cneg Ci) Hm)))).
  { destruct Hm as [[h0 k0] [h1 k1] [h2 k2] [h3 k3]].
    destruct U as [[u0 v0] [u1 v1] [u2 v2] [u3 v3]].
    by_components; ring. }
  rewrite Hfactor. unfold Unitary in HU. rewrite HU.
  apply Hermitian_entries in HH. destruct HH as (E1 & E2 & E3 & E4).
  destruct Hm as [[h0 k0] [h1 k1] [h2 k2] [h3 k3]].
  simpl in E1, E2, E3, E4. subst k0 k3 h2 k2.
  by_components; ring.
Qed.

(** X5.  With Hermitian [A] and [B] and [T <> 0], the derivative [dU]
    that the right-hand side returns for the state encoding [U] keeps
    [U† U] constant to first order: [dU† U + U† dU = 0] for every [U];
    and when [U U† = 1] it keeps [U U†] constant too:
    [dU U† + U dU† = 0]. *)
Theorem matrix_differential_equation_keeps_unitarity (g : Env) (t : R) (U : M2 C) :
  Hermitian (A g) -> Hermitian (B g) -> T g <> 0 ->
  exists d dU,
    matrix_differential_equation t (matrix_to_flat U) (H g) = Ok d /\
    flat_to_matrix d = Ok dU /\
    madd (matmul (T_then_conj dU) U) (matmul (T_then_conj U) dU) = mzero /\
    (Unitary U ->
     madd (matmul dU (T_then_conj U)) (matmul U (T_then_conj dU)) = mzero).
Proof.
  intros HA HB HT.
  pose proof (interpolation_hermitian (A g) (B g) (1 - t / T g) (t / T g) HA HB)
    as HH.
  unfold matrix_differential_equation.
  rewrite flat_roundtrip, H_value by exact HT. cbn [bind].
  eexists. eexists. split; [reflexivity|].
  split; [apply flat_roundtrip|]. split.
  - apply generator_skew. exact HH.
  - intros HU. apply generator_skew_right; assumption.
Qed.

Lemma matrix_differential_equation_keeps_unitarity_witness :
  exists d dU,
    matrix_differential_equation 1 (matrix_to_flat swap_i) (H (scenario 2)) = Ok d /\
    flat_to_matrix d = Ok dU /\
    madd (matmul (T_then_conj dU) swap_i) (matmul (T_then_conj swap_i) dU) = mzero /\
    madd (matmul dU (T_then_conj swap_i)) (matmul swap_i (T_then_conj dU)) = mzero.
Proof.
  destruct (matrix_differential_equation_keeps_unitarity (scenario 2) 1 swap_i)
    as (d & dU & Hd & HdU & Hl & Hr).
  - unfold Hermitian. simpl. by_components; lra.
  - unfold Hermitian. simpl. by_components; lra.
  - simpl. lra.
  - exists d, dU. repeat split; try assumption.
    apply Hr. unfold Unitary. by_components; lra.
Defined.

(** X6.  With [B] set to [A], the sanity-check switch of the sampling
    cell, the Hamiltonian does not depend on time: [H(t) = A] for every
    [t], whenever [T <> 0]. *)
Theorem H_constant_when_B_is_A (g : Env) (t : R) :
  B g = A g -> T g <> 0 -> H g t = Ok (A g).
Proof.
  intros HBA HT. rewrite H_value by exact HT. rewrite HBA.
  f_equal. by_components; field; exact HT.
Qed.

Lemma H_constant_when_B_is_A_witness :
  H (mkEnv pauli_z pauli_z midentity 2 T_list_value []
           (matrix_to_flat midentity) [] []) 7 = Ok pauli_z.
Proof.
  apply (H_constant_when_B_is_A
           (mkEnv pauli_z pauli_z midentity 2 T_list_value []
                  (matrix_to_flat midentity) [] []) 7).
  - reflexivity.
  - simpl. lra.
Defined.

(** ** The deviation *)

Lemma Cabs_zero (z : C) : Cabs z = 0 <-> z = RtoC 0.
Proof.
  unfold Cabs. split.
  - intros Hz. apply sqrt_eq_0 in Hz; [|nra].
    apply C_eq; simpl; nra.
  - intros ->. simpl. replace (0 * 0 + 0 * 0) with 0 by ring. apply sqrt_0.
Qed.

(** X11.  For a Hermitian [B], the reported deviation
    [|(U† B U)[0][1]|] is never negative, and it is zero exactly when
    [U† B U] is diagonal, both off-diagonal entries being zero. *)
Theorem deviation_zero_iff_diagonal (Bm U : M2 C) :
  Hermitian Bm ->
  0 <= Cabs (m01 (approx_B_diag Bm U)) /\
  (Cabs (m01 (approx_B_diag Bm U)) = 0 <->
   m01 (approx_B_diag Bm U) = RtoC 0 /\ m10 (approx_B_diag Bm U) = RtoC 0).
Proof.
  intros HB. split; [apply sqrt_pos|].
  pose proof (approx_B_diag_hermitian Bm U HB) as Hh.
  apply Hermitian_entries in Hh. destruct Hh as (_ & _ & E3 & E4).
  rewrite Cabs_zero. split.
  - intros E. split; [exact E|].
    rewrite E in E3, E4. simpl in E3, E4. apply C_eq; simpl; lra.
  - intros [E _]. exact E.
Qed.

Lemma deviation_zero_iff_diagonal_witness :
  0 <= Cabs (m01 (approx_B_diag skew_hermitian_sample swap_i)) /\
  (Cabs (m01 (approx_B_diag skew_hermitian_sample swap_i)) = 0 <->
   m01 (approx_B_diag skew_hermitian_sample swap_i) = RtoC 0 /\
   m10 (approx_B_diag skew_hermitian_sample swap_i) = RtoC 0).
Proof.
  apply (deviation_zero_iff_diagonal skew_hermitian_sample swap_i).
  unfold Hermitian. by_components; lra.
Defined.

(** ** The evaluation grid *)

Lemma linspace_101_nth (Tv : R) (k : nat) :
  (k <= 100)%nat -> nth k (linspace 0 Tv 101) 0 = INR k * (Tv / 100).
Proof.
  intros Hk. rewrite linspace_101.
  destruct (Nat.eq_dec k 100) as [->|Hne].
  - rewrite app_nth2 by (rewrite length_map, length_seq; lia).
    rewrite length_map, length_seq, INR_IZR_INZ. simpl. lra.
  - rewrite app_nth1 by (rewrite length_map, length_seq; lia).
    set (f := fun k : nat => INR k * (Tv / 100)).
    rewrite (nth_indep _ 0 (f 0%nat))
      by (rewrite length_map, length_seq; lia).
    rewrite map_nth, seq_nth by lia. reflexivity.
Qed.

(** X7.  For [T > 0] the grid requested from the solver starts at 0,
    ends at [T], is strictly increasing and stays inside the
    integration interval [[0, T]]. *)
Theorem evaluation_grid_increasing (Tv : R) :
  0 < Tv ->
  nth 0 (linspace 0 Tv (num_values + 1)) 0 = 0 /\
  nth num_values (linspace 0 Tv (num_values + 1)) 0 = Tv /\
  (forall i j, (i < j <= num_values)%nat ->
     nth i (linspace 0 Tv (num_values + 1)) 0
     < nth j (linspace 0 Tv (num_values + 1)) 0) /\
  (forall k, (k <= num_values)%nat ->
     0 <= nth k (linspace 0 Tv (num_values + 1)) 0 <= Tv).
Proof.
  intros Hpos. change (num_values + 1)%nat with 101%nat. unfold num_values.
  assert (H100 : INR 100 = 100) by (rewrite INR_IZR_INZ; reflexivity).
  split; [|split; [|split]].
  - rewrite linspace_101_nth by lia. simpl. lra.
  - rewrite linspace_101_nth by lia. rewrite H100. lra.
  - intros i j Hij. rewrite !linspace_101_nth by lia.
    apply Rmult_lt_compat_r; [lra|]. apply lt_INR. lia.
  - intros k Hk. rewrite linspace_101_nth by lia.
    assert (H0 : 0 <= INR k) by apply pos_INR.
    assert (H1 : INR k <= INR 100) by (apply le_INR; exact Hk).
    rewrite H100 in H1. split; nra.
Qed.

Lemma evaluation_grid_increasing_witness :
  nth 0 (linspace 0 2 (num_values + 1)) 0 = 0 /\
  nth num_values (linspace 0 2 (num_values + 1)) 0 = 2 /\
  (forall i j, (i < j <= num_values)%nat ->
     nth i (linspace 0 2 (num_values + 1)) 0
     < nth j (linspace 0 2 (num_values + 1)) 0) /\
  (forall k, (k <= num_values)%nat ->
     0 <= nth k (linspace 0 2 (num_values + 1)) 0 <= 2).
Proof. apply (evaluation_grid_increasing 2). lra. Defined.

(** ** The analysis on what a sweep left behind *)

Lemma for_each_app {X : Type} (body : X -> Env -> outcome) (l1 l2 : list X) :
  forall g,
    for_each body (l1 ++ l2) g =
      match for_each body l1 g with
      | Done g' => for_each body l2 g'
      | Raised e g' => Raised e g'
      end.
Proof.
  induction l1 as [|x l1 IH]; intros g; simpl.
  - reflexivity.
  - destruct (body x g) as [g'|e g']; [apply IH|reflexivity].
Qed.

Lemma analysis_after_short_sweep (g : Env) :
  (length (U_T_list g) < length (T_list g))%nat ->
  exists g',
    analysis_cell g = Raised IndexError g' /\
    approx_B_diag_list g' = map (approx_B_diag (B g)) (U_T_list g) /\
    off_diag_elements_of_approx_B_list g' =
      map (fun U => Cabs (m01 (approx_B_diag (B g) U))) (U_T_list g) /\
    nth_error (T_list g) (length (U_T_list g)) = Some (T g') /\
    T_list g' = T_list g.
Proof.
  intros Hlt. unfold analysis_cell. cbn zeta.
  set (g0 := set_off_diag (set_approx_B_diag_list g []) []).
  change (T_list g0) with (T_list g).
  set (k := length (U_T_list g)) in *.
  replace (length (T_list g)) with (k + (length (T_list g) - k))%nat by lia.
  rewrite seq_app, for_each_app.
  destruct (analysis_loop k 0 g0) as (g1 & -> & Ha & Ho & HB & HTl & HUl);
    [simpl; lia|simpl; lia|].
  simpl in Ha, Ho, HB, HTl, HUl. unfold k in Ha, Ho.
  rewrite firstn_all in Ha, Ho.
  destruct (length (T_list g) - k)%nat as [|m] eqn:Em; [lia|].
  cbn [seq for_each Nat.add]. unfold analysis_body.
  destruct (index_in_range (T_list g1) k) as (Tv & -> & ETv);
    [rewrite HTl; exact Hlt|].
  assert (EU : index (U_T_list (set_T g1 Tv)) k = Raise IndexError).
  { unfold index. cbn [U_T_list set_T]. rewrite HUl.
    destruct (nth_error (U_T_list g) k) eqn:E; [|reflexivity].
    assert (Hn : nth_error (U_T_list g) k <> None) by congruence.
    apply nth_error_Some in Hn. unfold k in Hn. lia. }
  cbn zeta. rewrite EU.
  eexists. split; [reflexivity|]. cbn.
  rewrite HTl in ETv. repeat split; assumption.
Qed.

(** X8.  When fewer terminal matrices are recorded than there are
    durations, as after a sweep that raised, the analysis cell
    processes the recorded ones and then raises IndexError: its two
    lists hold one entry per recorded matrix and [T] is left at the
    first duration without one. *)
Theorem analysis_cell_missing_results (g : Env) :
  (length (U_T_list g) < length (T_list g))%nat ->
  exists g',
    analysis_cell g = Raised IndexError g' /\
    approx_B_diag_list g' =
      map (fun U => matmul (matmul (T_then_conj U) (B g)) U) (U_T_list g) /\
    off_diag_elements_of_approx_B_list g' =
      map (fun U => Cabs (m01 (matmul (matmul (T_then_conj U) (B g)) U)))
          (U_T_list g) /\
    nth_error (T_list g) (length (U_T_list g)) = Some (T g').
Proof.
  intros Hlt.
  destruct (analysis_after_short_sweep g Hlt) as (g' & Hr & Ha & Ho & HT & _).
  exists g'. repeat split; assumption.
Qed.

Lemma analysis_cell_missing_results_witness :
  exists g',
    analysis_cell (set_U_T_list (set_T_list (scenario 1) [1; 2]) [swap_i])
      = Raised IndexError g' /\
    approx_B_diag_list g' =
      [matmul (matmul (T_then_conj swap_i) pauli_x) swap_i] /\
    off_diag_elements_of_approx_B_list g' =
      [Cabs (m01 (matmul (matmul (T_then_conj swap_i) pauli_x) swap_i))] /\
    Some 2 = Some (T g').
Proof.
  apply (analysis_cell_missing_results
           (set_U_T_list (set_T_list (scenario 1) [1; 2]) [swap_i])).
  simpl. lia.
Defined.

Lemma np_log10_power_of_ten (e : R) : np_log10 (Rpower 10 e) = e.
Proof.
  unfold np_log10. rewrite ln_Rpower.
  assert (Hln : ln 10 <> 0) by (apply ln_neq_0; lra).
  field. exact Hln.
Qed.

Lemma log10_T_list_value :
  map np_log10 T_list_value = map (fun j : nat => -1 + 0.25 * INR j) (seq 0 18).
Proof.
  unfold T_list_value. rewrite map_map. apply map_ext.
  intros j. rewrite np_log10_power_of_ten. lra.
Qed.

Section PipelineFacts.

Variable solve_ivp :
  (R -> list R -> result (list R)) -> R * R -> list R -> list R ->
  result OdeResult.

(** X9.  The analysis reads the first [len(T_list)] entries of
    [U_T_list] only.  When the sweep cell is run on a namespace that
    already holds a terminal matrix for every duration, whatever it
    appends is ignored: the analysis completes and reports the
    deviations of the matrices that were there before. *)
Theorem analysis_ignores_second_sweep (g : Env) :
  (length (T_list g) <= length (U_T_list g))%nat ->
  exists g2,
    analysis_cell (final (sweep_cell solve_ivp g)) = Done g2 /\
    off_diag_elements_of_approx_B_list g2 =
      map (fun U => Cabs (m01 (matmul (matmul (T_then_conj U) (B g)) U)))
          (firstn (length (T_list g)) (U_T_list g)).
Proof.
  intros Hlen. unfold sweep_cell. cbn zeta.
  destruct (sweep_loop solve_ivp
              (T_list (set_U_A_flat g (matrix_to_flat (U_A g))))
              (set_U_A_flat g (matrix_to_flat (U_A g))) eq_refl)
    as (Us & HU & _ & _ & HB & _ & HTl & _).
  cbn [T_list U_T_list B set_U_A_flat] in *.
  set (g1 := final (for_each (sweep_body solve_ivp) (T_list g)
                      (set_U_A_flat g (matrix_to_flat (U_A g))))) in *.
  unfold analysis_cell. cbn zeta.
  destruct (analysis_loop (length (T_list g1)) 0
              (set_off_diag (set_approx_B_diag_list g1 []) []))
    as (g2 & Hrun & _ & Ho & _);
    [simpl; lia|simpl; rewrite HU, HTl, length_app; lia|].
  exists g2. split; [exact Hrun|].
  simpl in Ho. rewrite Ho, HB, HU, HTl.
  rewrite firstn_app.
  replace (length (T_list g) - length (U_T_list g))%nat with 0%nat by lia.
  rewrite firstn_O, app_nil_r. reflexivity.
Qed.

(** X10.  The cells in sequence, from the configuration cell on.  If
    the sweep completes, the analysis completes too: it reports 18
    deviations, the [j]-th computed from the integration result for the
    [j]-th duration, and the plot gets 18 points with abscissae
    [-1 + 0.25 j].  If the sweep raises, the analysis run on the
    namespace it left raises IndexError with fewer than 18 deviations,
    and the plot then raises ValueError. *)
Theorem notebook_pipeline (g : Env) :
  match sweep_cell solve_ivp (config_cell g) with
  | Done g1 =>
      exists Us g2,
        pure_sweep solve_ivp (A g) (B g) (U_A g) T_list_value = Ok Us /\
        analysis_cell g1 = Done g2 /\
        off_diag_elements_of_approx_B_list g2 =
          map (fun U => Cabs (m01 (matmul (matmul (T_then_conj U) (B g)) U))) Us /\
        length (off_diag_elements_of_approx_B_list g2) = 18%nat /\
        plot_cell g2 =
          Ok (combine (map (fun j : nat => -1 + 0.25 * INR j) (seq 0 18))
                      (off_diag_elements_of_approx_B_list g2))
  | Raised e g1 =>
      exists g2,
        analysis_cell g1 = Raised IndexError g2 /\
        (length (off_diag_elements_of_approx_B_list g2) < 18)%nat /\
        plot_cell g2 = Raise ValueError
  end.
Proof.
  unfold sweep_cell. cbn zeta.
  destruct (sweep_loop solve_ivp
              (T_list (set_U_A_flat (config_cell g)
                         (matrix_to_flat (U_A (config_cell g)))))
              (set_U_A_flat (config_cell g)
                 (matrix_to_flat (U_A (config_cell g)))) eq_refl)
    as (Us & HU & HF & _ & HB & _ & HTl & Hm).
  cbn [T_list U_T_list A B U_A set_U_A_flat config_cell set_U_T_list set_T_list
       app] in *.
  destruct (for_each (sweep_body solve_ivp) T_list_value _) as [g1|e g1];
    cbn [final] in *.
  - destruct Hm as [Hp _]. exists Us.
    assert (HlenUs : length Us = 18%nat)
      by (unfold pure_sweep in Hp; apply mapM_length in Hp; exact Hp).
    unfold analysis_cell. cbn zeta.
    destruct (analysis_loop (length (T_list g1)) 0
                (set_off_diag (set_approx_B_diag_list g1 []) []))
      as (g2 & Hrun & _ & Ho & _ & HTl2 & _);
      [simpl; lia|simpl; rewrite HU, HTl, HlenUs; simpl; lia|].
    exists g2. split; [exact Hp|]. split; [exact Hrun|].
    simpl in Ho, HTl2. rewrite HU, HB, HTl in Ho.
    change (length T_list_value) with 18%nat in Ho.
    rewrite <- HlenUs, firstn_all in Ho.
    split; [exact Ho|].
    assert (Hlen : length (off_diag_elements_of_approx_B_list g2) = 18%nat)
      by (rewrite Ho, length_map; exact HlenUs).
    split; [exact Hlen|].
    unfold plot_cell. rewrite HTl2, HTl, length_map, Hlen.
    change (length T_list_value) with 18%nat. cbn [Nat.eqb].
    rewrite log10_T_list_value. reflexivity.
  - destruct Hm as (_ & Hn & _).
    assert (Hk : (length Us < 18)%nat).
    { assert (Hs : nth_error T_list_value (length Us) <> None) by congruence.
      apply nth_error_Some in Hs. exact Hs. }
    destruct (analysis_after_short_sweep g1) as (g2 & Hrun & _ & Ho & _ & HTl2).
    { rewrite HU, HTl. exact Hk. }
    exists g2. split; [exact Hrun|].
    assert (Hlen : length (off_diag_elements_of_approx_B_list g2) = length Us)
      by (rewrite Ho, length_map, HU; reflexivity).
    split; [rewrite Hlen; exact Hk|].
    unfold plot_cell. rewrite HTl2, HTl, length_map, Hlen.
    change (length T_list_value) with 18%nat.
    destruct (Nat.eqb_spec 18 (length Us)) as [E|_]; [lia|reflexivity].
Qed.

End PipelineFacts.

Lemma analysis_ignores_second_sweep_witness :
  exists g2,
    analysis_cell
      (final (sweep_cell frozen_solver
                (set_U_T_list (set_T_list (scenario 1) [1]) [swap_i])))
    = Done g2 /\
    off_diag_elements_of_approx_B_list g2 =
      [Cabs (m01 (matmul (matmul (T_then_conj swap_i) pauli_x) swap_i))].
Proof.
  apply (analysis_ignores_second_sweep frozen_solver
           (set_U_T_list (set_T_list (scenario 1) [1]) [swap_i])).
  simpl. lia.
Defined.

(** ** The sampler's entries *)

Section SamplerEntries.

Variable RNG : Type.
Variable randn_2_2 : RNG -> M2 R * RNG.

(** X12.  The entries of a sample in terms of the two draws [r] (real
    parts) and [i] (imaginary parts): the diagonal is [r[0][0]],
    [r[1][1]] with zero imaginary part, so the imaginary draws on the
    diagonal are discarded; the (0,1) entry is
    [(r[0][1] + r[1][0])/2 + i (i[0][1] - i[1][0])/2] and the (1,0)
    entry is its conjugate.  The random source is left as after two
    draws. *)
Theorem sample_hermitian_matrix_entries (s : RNG) :
  let r := fst (randn_2_2 s) in
  let i := fst (randn_2_2 (snd (randn_2_2 s))) in
  let M := fst (sample_hermitian_matrix RNG randn_2_2 s) in
  m00 M = RtoC (m00 r) /\
  m11 M = RtoC (m11 r) /\
  m01 M = mkC ((m01 r + m10 r) / 2) ((m01 i - m10 i) / 2) /\
  m10 M = Cconj (m01 M) /\
  snd (sample_hermitian_matrix RNG randn_2_2 s)
  = snd (randn_2_2 (snd (randn_2_2 s))).
Proof.
  unfold sample_hermitian_matrix.
  destruct (randn_2_2 s) as [real_part s1]. simpl.
  destruct (randn_2_2 s1) as [imag_part s2]. simpl.
  destruct real_part as [r0 r1 r2 r3], imag_part as [i0 i1 i2 i3]. simpl.
  repeat split; by_components; field.
Qed.

End SamplerEntries.

(** ** The unitarity check *)

Lemma index_neg_last {X : Type} (l : list X) (x : X) :
  index_neg (l ++ [x]) 1 = Ok x.
Proof.
  unfold index_neg. rewrite length_app. simpl length.
  destruct (Nat.leb_spec 1 (length l + 1)) as [_|Hlt]; [|lia].
  unfold index. rewrite nth_error_app2 by lia.
  replace (length l + 1 - 1 - length l)%nat with 0%nat by lia. reflexivity.
Qed.

Lemma rint_near (z : Z) (x : R) :
  Rabs (x - IZR z) < / 2 -> rint x = IZR z.
Proof.
  intros Hnear. apply Rabs_def2 in Hnear. destruct Hnear as [Hhi Hlo].
  unfold rint. pose proof (Zfloor_bound x) as [Hl Hu].
  set (f := Zfloor x) in *.
  assert (Hfz : (f <= z)%Z).
  { apply Zorder.Zlt_succ_le. apply lt_IZR. rewrite succ_IZR. lra. }
  assert (Hzf : (z - 1 <= f)%Z).
  { apply Zorder.Zlt_succ_le. apply lt_IZR. rewrite succ_IZR, minus_IZR. lra. }
  destruct (Z.eq_dec f z) as [->|Hne].
  - destruct (Rlt_dec (x - IZR z) (/ 2)); [reflexivity|lra].
  - assert (Ef : f = (z - 1)%Z) by lia.
    assert (EI : IZR f = IZR z - 1) by (rewrite Ef, minus_IZR; reflexivity).
    destruct (Rlt_dec (x - IZR f) (/ 2)); [lra|].
    destruct (Rlt_dec (/ 2) (x - IZR f)); lra.
Qed.

Lemma rint_within_half (x : R) : Rabs (x - rint x) <= / 2.
Proof.
  unfold rint. pose proof (Zfloor_bound x) as [Hl Hu].
  set (f := Zfloor x) in *.
  destruct (Rlt_dec (x - IZR f) (/ 2)); [apply Rabs_le; lra|].
  destruct (Rlt_dec (/ 2) (x - IZR f)); [apply Rabs_le; lra|].
  destruct (Z.even f); apply Rabs_le; lra.
Qed.

Lemma np_round_2_near (z : Z) (x : R) :
  Rabs (x - IZR z / 100) < 0.005 -> np_round 2 x = IZR z / 100.
Proof.
  intros Hnear. apply Rabs_def2 in Hnear. destruct Hnear as [Hhi Hlo].
  unfold np_round. replace (10 ^ 2) with 100 by (simpl; lra).
  rewrite (rint_near z); [reflexivity|].
  apply Rabs_def1; lra.
Qed.

Lemma Rabs_le_bounds (a b : R) : Rabs a <= b -> - b <= a <= b.
Proof. unfold Rabs. destruct (Rcase_abs a); lra. Qed.

Lemma np_round_2_within (x : R) : Rabs (x - np_round 2 x) <= 0.005.
Proof.
  unfold np_round. replace (10 ^ 2) with 100 by (simpl; lra).
  pose proof (rint_within_half (x * 100)) as Hh.
  apply Rabs_le_bounds in Hh. apply Rabs_le. lra.
Qed.

Lemma rounding_shows_identity (Q : M2 C) :
  Forall (fun d => d < 0.005) (component_gaps Q midentity) ->
  mmap (cround 2) Q = midentity.
Proof.
  destruct Q as [[a0 b0] [a1 b1] [a2 b2] [a3 b3]].
  unfold component_gaps. cbn. intros HF.
  repeat match goal with
         | Hx : Forall _ (_ :: _) |- _ => inversion_clear Hx
         end.
  unfold cround. cbn.
  by_components;
    first [ rewrite (np_round_2_near 100) by (replace (100 / 100) with 1 by lra; assumption); lra
          | rewrite (np_round_2_near 0) by (replace (0 / 100) with 0 by lra; assumption); lra ].
Qed.

Lemma shown_identity_is_close (Q : M2 C) :
  mmap (cround 2) Q = midentity ->
  Forall (fun d => d <= 0.005) (component_gaps Q midentity).
Proof.
  destruct Q as [[a0 b0] [a1 b1] [a2 b2] [a3 b3]].
  unfold cround. cbn. intros Heq.
  injection Heq as E0 E1 E2 E3 E4 E5 E6 E7.
  unfold component_gaps. cbn.
  repeat (apply Forall_cons;
          [ match goal with
            | |- Rabs (?x - _) <= _ =>
                pose proof (np_round_2_within x) as Hw
            end;
            rewrite ?E0, ?E1, ?E2, ?E3, ?E4, ?E5, ?E6, ?E7 in Hw; exact Hw
          | ]).
  apply Forall_nil.
Qed.

(** X13.  The unitarity check raises IndexError when no terminal matrix
    has been recorded.  Otherwise it takes the last recorded matrix [U]
    and shows [U U†] rounded to two decimals: the 2x2 identity whenever
    every real and imaginary part of [U U†] is within 0.005 of the
    identity's, and only if each is within 0.005 or exactly at that
    distance. *)
Theorem unitarity_check_shows_identity (g : Env) :
  (U_T_list g = [] -> unitarity_check g = Raise IndexError) /\
  (forall Us U, U_T_list g = Us ++ [U] ->
     unitarity_check g = Ok (mmap (cround 2) (matmul U (T_then_conj U))) /\
     (Forall (fun d => d < 0.005)
             (component_gaps (matmul U (T_then_conj U)) midentity) ->
      unitarity_check g = Ok midentity) /\
     (unitarity_check g = Ok midentity ->
      Forall (fun d => d <= 0.005)
             (component_gaps (matmul U (T_then_conj U)) midentity))).
Proof.
  split.
  - intros E. unfold unitarity_check. rewrite E. reflexivity.
  - intros Us U E.
    assert (Hrun : unitarity_check g
                   = Ok (mmap (cround 2) (matmul U (T_then_conj U)))).
    { unfold unitarity_check. rewrite E, index_neg_last. reflexivity. }
    split; [exact Hrun|]. rewrite Hrun. split.
    + intros HF. f_equal. apply rounding_shows_identity. exact HF.
    + intros Heq. apply shown_identity_is_close. congruence.
Qed.

Lemma unitarity_check_shows_identity_witness :
  unitarity_check (scenario 1) = Raise IndexError /\
  unitarity_check (set_U_T_list (scenario 1) [pauli_z; swap_i]) = Ok midentity.
Proof.
  split.
  - apply (proj1 (unitarity_check_shows_identity (scenario 1))). reflexivity.
  - apply (proj2 (unitarity_check_shows_identity
                    (set_U_T_list (scenario 1) [pauli_z; swap_i]))
             [pauli_z] swap_i eq_refl).
    unfold component_gaps. cbn.
    repeat (apply Forall_cons;
            [ match goal with
              | |- Rabs ?x < _ => replace x with 0 by lra; rewrite Rabs_R0; lra
              end
            | ]).
    apply Forall_nil.
Defined.
